(** * slipstream: the topology registry and the message-distribution engine

    A shallow embedding of [slipstream/core.py]: the process-wide registry
    [Conf], the dual-role stream entity [Topic], the sink dispatcher
    [_sink_output], the handler binder [handle] and the dispatch loop
    [_start] / [_distribute_messages] / [_shutdown].

    Python objects that are mutated in place and shared (topics) live in a
    heap indexed by their identity; coroutines are computations in a monad
    that threads the heap, may raise, and records what they do in a trace.
    The trace is a call tree: what a callee does is recorded inside the
    event of the call, so that the events at the top of a coroutine's trace
    are the steps of that coroutine itself, in the order it took them. *)

From Stdlib Require Import ZArith NArith Strings.Byte Strings.Ascii.
From stdpp Require Import base option list functions gmap strings pretty.

Local Open Scope string_scope.
Local Open Scope list_scope.
#[local] Set Warnings "-register-all".

(** ** Exceptions *)

Inductive exn :=
  | KeyboardInterrupt
  | ValueError (msg : string)
  | TypeError (msg : string)
  | AttributeError (msg : string)
  | UnicodeDecodeError
  | KafkaError (msg : string)
  | StopAsyncIteration
  | RuntimeError (tag : nat).

(** [except Exception] catches everything that derives from [Exception];
    [KeyboardInterrupt] derives from [BaseException] only. *)
Definition is_Exception (e : exn) : bool :=
  match e with
  | KeyboardInterrupt => false
  | _ => true
  end.

Definition is_KeyboardInterrupt (e : exn) : bool :=
  match e with
  | KeyboardInterrupt => true
  | _ => false
  end.

(** ** Values *)

(** Callable objects that end up inside a configuration dictionary. *)
Inductive callable :=
  | CodecDecode (codec : nat)
  | CodecEncode (codec : nat)
  | OtherCallable (id : nat).

(** Python values seen by the engine.  Text ([str]) is held as its UTF-8
    encoding; [VGen] is a generator object: the values it yields and the
    exception, if any, that ends it; [VRecord] is a [ConsumerRecord]. *)
Inductive value :=
  | VNone
  | VBool (b : bool)
  | VInt (z : Z)
  | VStr (s : string)
  | VBytes (b : list byte)
  | VTuple (items : list value)
  | VList (items : list value)
  | VGen (yields : list value) (fin : option exn)
  | VRecord (topic : string) (offset : Z) (key : value) (val : value)
  | VCallable (c : callable).

(** Truth value of an object, as [not] and [if] test it. *)
Definition truthy (v : value) : bool :=
  match v with
  | VNone => false
  | VBool b => b
  | VInt z => negb (z =? 0)%Z
  | VStr s => negb (String.eqb s "")
  | VBytes b => match b with [] => false | _ => true end
  | VTuple items | VList items => match items with [] => false | _ => true end
  | VGen _ _ | VRecord _ _ _ _ | VCallable _ => true
  end.

(** [isinstance(v, bytes)], [isinstance(v, str)], [isinstance(v, tuple)],
    [isinstance(v, Generator)]. *)
Definition is_bytes (v : value) : bool :=
  match v with VBytes _ => true | _ => false end.
Definition is_str (v : value) : bool :=
  match v with VStr _ => true | _ => false end.
Definition is_tuple (v : value) : bool :=
  match v with VTuple _ => true | _ => false end.
Definition is_Generator (v : value) : bool :=
  match v with VGen _ _ => true | _ => false end.

(** *** [bytes.decode()] and [str.encode()]: strict UTF-8 *)

Definition is_cont (b : N) : bool := ((128 <=? b) && (b <=? 191))%N.

Definition in_range (lo hi b : N) : bool := ((lo <=? b) && (b <=? hi))%N.

Fixpoint utf8_valid (bs : list N) : bool :=
  match bs with
  | [] => true
  | b0 :: r0 =>
    if (b0 <? 128)%N then utf8_valid r0
    else if in_range 194 223 b0 then
      match r0 with
      | b1 :: r1 => is_cont b1 && utf8_valid r1
      | _ => false
      end
    else if in_range 224 239 b0 then
      match r0 with
      | b1 :: b2 :: r2 =>
        (if (b0 =? 224)%N then in_range 160 191 b1
         else if (b0 =? 237)%N then in_range 128 159 b1
         else is_cont b1)
        && is_cont b2 && utf8_valid r2
      | _ => false
      end
    else if in_range 240 244 b0 then
      match r0 with
      | b1 :: b2 :: b3 :: r3 =>
        (if (b0 =? 240)%N then in_range 144 191 b1
         else if (b0 =? 244)%N then in_range 128 143 b1
         else is_cont b1)
        && is_cont b2 && is_cont b3 && utf8_valid r3
      | _ => false
      end
    else false
  end.

Definition bytes_decode (b : list byte) : option string :=
  if utf8_valid (map Byte.to_N b) then Some (String.string_of_list_byte b) else None.

Definition str_encode (s : string) : list byte := String.list_byte_of_string s.

(** A dictionary with string keys: a topic's configuration, the keyword
    context forwarded to handlers. *)
Abbreviation dict := (gmap string value).

(** [d.get(k)]: [None] when the key is absent. *)
Definition dict_get (d : dict) (k : string) : value := default VNone (d !! k).

(** ** The world: stream entities and the transport collaborator *)

(** The inbound and outbound transport handles ([AIOKafkaConsumer],
    [AIOKafkaProducer]), with the settings they were built from. *)
Record Consumer := { cons_topic : string; cons_conf : dict }.
Record Producer := { prod_conf : dict }.

(** The attributes of a [Topic] object. *)
Record Topic := {
  name : string;
  conf : dict;
  starting_offset : option Z;
  codec : option nat;
  consumer : option Consumer;
  producer : option Producer }.

Definition set_conf (t : Topic) (d : dict) : Topic :=
  {| name := name t; conf := d; starting_offset := starting_offset t;
     codec := codec t; consumer := consumer t; producer := producer t |}.
Definition set_consumer (t : Topic) (c : option Consumer) : Topic :=
  {| name := name t; conf := conf t; starting_offset := starting_offset t;
     codec := codec t; consumer := c; producer := producer t |}.
Definition set_producer (t : Topic) (p : option Producer) : Topic :=
  {| name := name t; conf := conf t; starting_offset := starting_offset t;
     codec := codec t; consumer := consumer t; producer := p |}.

(** The message-client dependency (aiokafka), at its interface: the
    parameter names its classes accept ([get_params_names]) and whether
    its operations fail. *)
Record Kafka := {
  consumer_params : gset string;
  producer_params : gset string;
  client_params : gset string;
  consumer_start : string → option exn;
  producer_start : option exn;
  send_and_wait : string → value → value → option exn;
  consumer_stop : string → option exn;
  producer_stop : option exn }.

(** [KAFKA_CLASSES_PARAMS] *)
Definition KAFKA_CLASSES_PARAMS (k : Kafka) : gset string :=
  consumer_params k ∪ producer_params k ∪ client_params k.

Definition READ_FROM_START : Z := -2.
Definition READ_FROM_END : Z := -1.

(** The heap of [Topic] objects, by identity, the transport, and where
    each iterator object stands: the number of items it has handed out. *)
Record World := {
  w_topics : gmap nat Topic;
  w_kafka : Kafka;
  w_cursors : gmap nat nat }.

Definition set_topics (w : World) (ts : gmap nat Topic) : World :=
  {| w_topics := ts; w_kafka := w_kafka w; w_cursors := w_cursors w |}.

Definition set_cursors (w : World) (cs : gmap nat nat) : World :=
  {| w_topics := w_topics w; w_kafka := w_kafka w; w_cursors := cs |}.

(** ** Results and traces *)

Inductive Result (A : Type) :=
  | Ok (a : A)
  | Raise (e : exn).
Arguments Ok {A} a.
Arguments Raise {A} e.

(** The exception a call ended with, if any. *)
Definition failure {A} (r : Result A) : option exn :=
  match r with
  | Ok _ => None
  | Raise e => Some e
  end.

(** A sink, as a trace names it. *)
Inductive sink_ref :=
  | CacheRef (cache : nat)
  | TopicRef (topic : nat)
  | FunctionRef (id : nat).

(** The calls on collaborators (transport, storage, logger, clock), the
    opaque effects of user code, and the calls the engine makes into other
    code, each with what went on inside ([inner]) and how it ended. *)
Inductive event :=
  | ConsumerStarted (topic : string)
  | ProducerStarted (topic : string)
  | Sent (topic : string) (key val : value)
  | ConsumerStopped (topic : string)
  | ProducerStopped (topic : string)
  | CacheSet (cache : nat) (key val : value)
  | LogError (text : string)
  | LogWarning (text : string)
  | Slept
  | Effect (tag : nat)
  | Opened (key : string) (inner : list event) (raised : option exn)
  | Pulled (key : string) (n : nat) (inner : list event) (got : Result value)
  | Handled (key : string) (n : nat) (h : nat) (msg : value)
      (inner : list event) (raised : option exn)
  | Processed (inner : list event) (returned : Result value)
  | Dispatched (s : sink_ref) (output : value)
      (inner : list event) (raised : option exn).

(** ** Coroutines: state, exceptions and a trace *)

Record Res (A : Type) := mkRes {
  outcome : Result A;
  world : World;
  trace : list event }.
Arguments mkRes {A} _ _ _.
Arguments outcome {A} _.
Arguments world {A} _.
Arguments trace {A} _.

Definition M (A : Type) : Type := World → Res A.

Definition ret {A} (a : A) : M A := λ w, mkRes (Ok a) w [].

Definition raise {A} (e : exn) : M A := λ w, mkRes (Raise e) w [].

Definition bind {A B} (m : M A) (k : A → M B) : M B := λ w,
  let r := m w in
  match outcome r with
  | Ok a => let r' := k a (world r) in
            mkRes (outcome r') (world r') (trace r ++ trace r')
  | Raise e => mkRes (Raise e) (world r) (trace r)
  end.

#[global] Instance M_ret : MRet M := λ A, @ret A.
#[global] Instance M_bind : MBind M := λ A B k m, @bind A B m k.

Definition emit (e : event) : M unit := λ w, mkRes (Ok tt) w [e].

Definition get_world : M World := λ w, mkRes (Ok w) w [].

Definition put_world (w' : World) : M unit := λ _, mkRes (Ok tt) w' [].

(** [await c]: the coroutine [c] is run to completion at this point. *)
Definition await {A} (c : M A) : M A := c.

(** A call into other code: one event, holding what the callee did. *)
Definition scope {A} (node : list event → Result A → event) (m : M A) : M A :=
  λ w, let r := m w in
       mkRes (outcome r) (world r) [node (trace r) (outcome r)].

(** [try: body / except <class>: handler]: [catches] is the [isinstance]
    test of the except clause. *)
Definition try_except {A} (body : M A) (catches : exn → bool)
    (handler : exn → M A) : M A := λ w,
  let r := body w in
  match outcome r with
  | Ok a => r
  | Raise e =>
    if catches e then
      let r' := handler e (world r) in
      mkRes (outcome r') (world r') (trace r ++ trace r')
    else r
  end.

(** [try: body / finally: final]: [final] always runs; when it raises, its
    exception replaces whatever [body] left pending. *)
Definition try_finally {A} (body : M A) (final : M unit) : M A := λ w,
  let r := body w in
  let r' := final (world r) in
  match outcome r' with
  | Ok _ => mkRes (outcome r) (world r') (trace r ++ trace r')
  | Raise e => mkRes (Raise e) (world r') (trace r ++ trace r')
  end.

(** [for x in xs: body x] *)
Fixpoint for_ {X} (xs : list X) (body : X → M unit) : M unit :=
  match xs with
  | [] => ret tt
  | x :: rest => bind (body x) (λ _, for_ rest body)
  end.

(** [e.args[0]], when the exception has arguments. *)
Definition exn_arg (e : exn) : option string :=
  match e with
  | ValueError m | TypeError m | AttributeError m | KafkaError m => Some m
  | UnicodeDecodeError => Some "utf-8"
  | KeyboardInterrupt | StopAsyncIteration | RuntimeError _ => None
  end.

(** ** Stream entity: [class Topic] *)

(** Dereference [self].  The identity of a live object is always in the
    heap; a stray one is reported as an error. *)
Definition get_topic (self : nat) : M Topic := λ w,
  match w_topics w !! self with
  | Some t => mkRes (Ok t) w []
  | None => mkRes (Raise (AttributeError "no such object")) w []
  end.

(** Attribute assignment on [self]. *)
Definition update_topic (self : nat) (f : Topic → Topic) : M unit := λ w,
  match w_topics w !! self with
  | Some t => mkRes (Ok tt) (set_topics w (<[self := f t]> (w_topics w))) []
  | None => mkRes (Raise (AttributeError "no such object")) w []
  end.

Definition get_kafka : M Kafka := λ w, mkRes (Ok (w_kafka w)) w [].

(** [{k: v for k, v in conf.items() if k in params}] *)
Definition conf_for (params : gset string) (d : dict) : dict :=
  filter (λ kv, kv.1 ∈ params) d.

(** The call of a transport operation that may fail. *)
Definition transport (fails : option exn) (done : event) : M unit :=
  match fails with
  | Some e => raise e
  | None => emit done
  end.

(** [Topic.admin] *)
Definition Topic_admin (self : nat) : M dict :=
  t ← get_topic self;
  k ← get_kafka;
  mret (conf_for (client_params k) (conf t)).

(** [Topic.get_consumer] *)
Definition Topic_get_consumer (self : nat) : M Consumer :=
  t ← get_topic self;
  k ← get_kafka;
  let params := consumer_params k in
  match codec t with
  | Some c =>
    update_topic self (λ t,
      set_conf t (<["value_deserializer" := VCallable (CodecDecode c)]> (conf t)))
  | None => mret tt
  end;;
  t ← get_topic self;
  let consumer :=
    {| cons_topic := name t; cons_conf := conf_for params (conf t) |} in
  await (transport (consumer_start k (name t)) (ConsumerStarted (name t)));;
  mret consumer.

(** [Topic.get_producer] *)
Definition Topic_get_producer (self : nat) : M Producer :=
  t ← get_topic self;
  k ← get_kafka;
  let params := producer_params k in
  match codec t with
  | Some c =>
    update_topic self (λ t,
      set_conf t (<["value_serializer" := VCallable (CodecEncode c)]> (conf t)))
  | None => mret tt
  end;;
  t ← get_topic self;
  let producer := {| prod_conf := conf_for params (conf t) |} in
  await (transport (producer_start k) (ProducerStarted (name t)));;
  mret producer.

(** The text logged when producing or consuming fails. *)
Definition error_text (doing : string) (topic : string) (e : exn) : string :=
  match exn_arg e with
  | Some a => "Error raised while " +:+ doing +:+ " Topic " +:+ topic +:+ ": " +:+ a
  | None => ""
  end.

(** [Topic.__call__]: produce a message to the topic. *)
Definition Topic_call (self : nat) (key val : value) : M unit :=
  t ← get_topic self;
  (if negb (bool_decide (is_Some (producer t))) then
     p ← await (Topic_get_producer self);
     update_topic self (λ t, set_producer t (Some p))
   else mret tt);;
  t ← get_topic self;
  k ← get_kafka;
  let key :=
    match key with
    | VStr s =>
      if negb (truthy (dict_get (conf t) "key_serializer"))
      then VBytes (str_encode s) else key
    | _ => key
    end in
  let val :=
    match val with
    | VStr s =>
      if negb (truthy (dict_get (conf t) "value_serializer"))
      then VBytes (str_encode s) else val
    | _ => val
    end in
  try_except
    (await (transport (send_and_wait k (name t) key val) (Sent (name t) key val)))
    is_Exception
    (λ e, emit (LogError (error_text "producing to" (name t) e));; raise e).

(** What the transport hands over when the entity asks for the next
    record: a record, or a failure. *)
Inductive feed_item :=
  | Delivered (msg : value)
  | Failed (e : exn).

(** [msg.key.decode()]: a field that is [bytes] and has no deserializer
    configured is decoded; any other field is left as it is. *)
Definition decode_field (d : dict) (setting : string) (field : value)
    : M value :=
  match field with
  | VBytes b =>
    if negb (truthy (dict_get d setting)) then
      match bytes_decode b with
      | Some s => mret (VStr s)
      | None => raise UnicodeDecodeError
      end
    else mret field
  | _ => mret field
  end.

(** [Topic.__aiter__] is an asynchronous generator.  Its body up to the
    loop runs when the first message is asked for ... *)
Definition Topic_aiter_start (self : nat) : M unit :=
  t ← get_topic self;
  if negb (bool_decide (is_Some (consumer t))) then
    c ← await (Topic_get_consumer self);
    update_topic self (λ t, set_consumer t (Some c))
  else mret tt.

(** ... and each time a message is asked for, one turn of the loop inside
    its [try] runs up to the [yield], on what the consumer hands over. *)
Definition Topic_aiter_resume (self : nat) (item : feed_item) : M value :=
  try_except
    (match item with
     | Failed e => raise e
     | Delivered (VRecord tp off k v) =>
       t ← get_topic self;
       k' ← decode_field (conf t) "key_deserializer" k;
       t ← get_topic self;
       v' ← decode_field (conf t) "value_deserializer" v;
       mret (VRecord tp off k' v')
     | Delivered _ => raise (AttributeError "key")
     end)
    is_Exception
    (λ e, t ← get_topic self;
          emit (LogError (error_text "consuming from" (name t) e));; raise e).

(** [Topic.__next__]: one message from a fresh iteration; [item] is what
    the consumer hands over, [None] when it has nothing more. *)
Definition Topic_next (self : nat) (item : option feed_item) : M value :=
  Topic_aiter_start self;;
  match item with
  | Some i => Topic_aiter_resume self i
  | None => raise StopAsyncIteration
  end.

(** [Topic._shutdown] *)
Definition Topic_shutdown (self : nat) : M unit :=
  t ← get_topic self;
  k ← get_kafka;
  match consumer t with
  | Some c => await (transport (consumer_stop k (cons_topic c)) (ConsumerStopped (cons_topic c)))
  | None => mret tt
  end;;
  match producer t with
  | Some p => await (transport (producer_stop k) (ProducerStopped (name t)))
  | None => mret tt
  end.

(** ** Sink dispatcher *)

(** A sink: a [Cache], a [Topic], or any other callable, given by its
    identity, by what [iscoroutinecallable] says of it, and by what
    calling it does. *)
Inductive sink :=
  | CacheSink (cache : nat)
  | TopicSink (topic : nat)
  | FunctionSink (id : nat) (is_coroutine : bool) (body : value → M value).

Definition ref_of (s : sink) : sink_ref :=
  match s with
  | CacheSink cache => CacheRef cache
  | TopicSink topic => TopicRef topic
  | FunctionSink id _ _ => FunctionRef id
  end.

(** Modelled from the spec: [Cache.__call__] ([slipstream/caching.py] is not
    part of the sources), the keyed-storage capability accepting a
    [(key, value)] pair, which it writes.  As for any call, a wrong number
    of positional arguments is a [TypeError] before the body runs. *)
Definition Cache_call (cache : nat) (args : list value) : M unit :=
  match args with
  | [key; val] => emit (CacheSet cache key val)
  | _ => raise (TypeError "Cache.__call__() takes 2 positional arguments")
  end.

(** [s( *output )] on a topic: [Topic.__call__(key, value)]. *)
Definition Topic_call_star (self : nat) (args : list value) : M unit :=
  match args with
  | [key; val] => Topic_call self key val
  | _ => raise (TypeError "Topic.__call__() takes 2 positional arguments")
  end.

Definition sink_shape_error : exn :=
  ValueError "Cache sink expects: Tuple[key, val].".

(** [_sink_output]; the call is one [Dispatched] event of the caller. *)
Definition _sink_output (s : sink) (output : value) : M unit :=
  scope (λ inner r, Dispatched (ref_of s) output inner (failure r))
    match s with
    | CacheSink cache =>
      match output with
      | VTuple items => Cache_call cache items
      | _ => raise sink_shape_error
      end
    | TopicSink topic =>
      match output with
      | VTuple items => await (Topic_call_star topic items)
      | _ => await (Topic_call topic (VBytes []) output)
      end
    | FunctionSink id is_coroutine body =>
      if is_coroutine then await (body output);; mret tt
      else body output;; mret tt
    end.

(** ** Handler binder *)

(** [inspect.Parameter.kind] *)
Inductive param_kind :=
  | POSITIONAL_ONLY
  | POSITIONAL_OR_KEYWORD
  | VAR_POSITIONAL
  | KEYWORD_ONLY
  | VAR_KEYWORD.

Definition is_VAR_KEYWORD (p : param_kind) : bool :=
  match p with VAR_KEYWORD => true | _ => false end.

(** A processing function: its signature, whether it is a coroutine
    function, and what a call with positional arguments and keyword
    arguments does. *)
Record PyFunction := {
  fn_parameters : list param_kind;
  fn_is_coroutine : bool;
  fn_call : list value → dict → M value }.

(** The call of the processing function: [f(msg, **kwargs)], [f(msg)] or
    [f()], awaited when [f] is a coroutine function; one [Processed] event
    of the caller. *)
Definition invoke (f : PyFunction) (msg : value) (kwargs : dict) : M value :=
  let parameters := fn_parameters f in
  scope Processed
    (if fn_is_coroutine f then
       if existsb is_VAR_KEYWORD parameters then await (fn_call f [msg] kwargs)
       else
         match parameters with
         | _ :: _ => await (fn_call f [msg] ∅)
         | [] => await (fn_call f [] ∅)
         end
     else
       if existsb is_VAR_KEYWORD parameters then fn_call f [msg] kwargs
       else
         match parameters with
         | _ :: _ => fn_call f [msg] ∅
         | [] => fn_call f [] ∅
         end).

(** The [sink] argument of [handle]: any iterable of sinks.  A collection
    (a list, a tuple) is walked from its start by every [for] statement;
    an iterator (a generator, [iter(...)], [map(...)]) hands out each of
    its items once, to whichever [for] statement asks first. *)
Inductive sinks :=
  | Collection (items : list sink)
  | Iterator (id : nat) (items : list sink).

Definition cursor (id : nat) : M nat := λ w,
  mkRes (Ok (default 0 (w_cursors w !! id))) w [].

Definition set_cursor (id : nat) (n : nat) : M unit := λ w,
  mkRes (Ok tt) (set_cursors w (<[id := n]> (w_cursors w))) [].

(** [for s in it: body s] on an iterator: each turn asks the iterator for
    its next item and ends the loop when there is none.  An iterator never
    steps back, so that the loop takes no more turns than the iterator has
    items. *)
Fixpoint for_iterator (turns : nat) (id : nat) (items : list sink)
    (body : sink → M unit) : M unit :=
  match turns with
  | 0 => mret tt
  | S turns =>
    n ← cursor id;
    match items !! n with
    | None => mret tt
    | Some s =>
      set_cursor id (S n);;
      body s;;
      for_iterator turns id items body
    end
  end.

(** [for s in sink: body s] *)
Definition for_sinks (sink_ : sinks) (body : sink → M unit) : M unit :=
  match sink_ with
  | Collection items => for_ items body
  | Iterator id items => for_iterator (length items) id items body
  end.

(** [for val in output if isinstance(output, Generator) else [output]: for
    s in sink: await _sink_output(s, val)] *)
Definition fan_out (sink : sinks) (output : value) : M unit :=
  match output with
  | VGen yields fin =>
    for_ yields (λ val, for_sinks sink (λ s, await (_sink_output s val)));;
    match fin with
    | Some e => raise e
    | None => mret tt
    end
  | _ =>
    for_ [output] (λ val, for_sinks sink (λ s, await (_sink_output s val)))
  end.

(** [handle._deco._handler], closed over [f] and [sink] *)
Definition _handler (f : PyFunction) (sink : sinks)
    (msg : value) (kwargs : dict) : M unit :=
  output ← invoke f msg kwargs;
  fan_out sink output.

(** ** Topology registry: [class Conf] *)

(** The order in which a Python [set] hands out its members: some
    arrangement of the members, fixed by the hash table and not by the
    order of insertion. *)
Class SetOrder := {
  set_iter : gset nat → list nat;
  set_iter_perm : ∀ X, set_iter X ≡ₚ elements X }.

(** What is registered as a handler: called as [h(msg=msg, kwargs=kwargs)]
    and awaited. *)
Abbreviation Handler := (value → dict → M unit).

(** The class attributes [topics], [iterables] and [handlers], and the
    instance attribute [conf].  Sources and handlers are held by identity;
    [closures] is the heap in which the handler closures live. *)
Record Conf := {
  topics : list nat;
  iterables : gset (string * nat);
  handlers : gmap string (gset nat);
  closures : nat → Handler;
  Conf_conf : dict }.

Definition Conf_empty : Conf :=
  {| topics := []; iterables := ∅; handlers := ∅;
     closures := λ _ _ _, mret tt; Conf_conf := ∅ |}.

(** [Conf.register_topic] *)
Definition register_topic (topic : nat) (c : Conf) : Conf :=
  {| topics := topics c ++ [topic]; iterables := iterables c;
     handlers := handlers c; closures := closures c; Conf_conf := Conf_conf c |}.

(** [Conf.register_iterable] *)
Definition register_iterable (key : string) (it : nat) (c : Conf) : Conf :=
  {| topics := topics c; iterables := {[ (key, it) ]} ∪ iterables c;
     handlers := handlers c; closures := closures c; Conf_conf := Conf_conf c |}.

(** [Conf.register_handler] *)
Definition register_handler (key : string) (handler : nat) (c : Conf) : Conf :=
  let hs := default ∅ (handlers c !! key) in
  let hs := {[ handler ]} ∪ hs in
  {| topics := topics c; iterables := iterables c;
     handlers := <[key := hs]> (handlers c);
     closures := closures c; Conf_conf := Conf_conf c |}.

(** A closure object comes to life at identity [h]. *)
Definition new_closure (h : nat) (code : Handler) (c : Conf) : Conf :=
  {| topics := topics c; iterables := iterables c; handlers := handlers c;
     closures := <[h := code]> (closures c); Conf_conf := Conf_conf c |}.

(** [Conf.__update__], the configuration part. *)
Definition Conf_update (d : dict) (c : Conf) : Conf :=
  {| topics := topics c; iterables := iterables c; handlers := handlers c;
     closures := closures c; Conf_conf := d ∪ Conf_conf c |}.

(** [str(id(it))] *)
Definition iterable_key (it : nat) : string := pretty it.

(** [handle( *iterable, sink=sink )(f)]; [h] is the identity of the closure
    [_handler] that the call creates, one that no live closure has. *)
Definition handle (iterable : list nat) (sink : sinks) (f : PyFunction)
    (h : nat) (c : Conf) : Conf :=
  foldl
    (λ c it,
       register_handler (iterable_key it) h
         (register_iterable (iterable_key it) it c))
    (new_closure h (_handler f sink) c)
    iterable.

(** [Topic.__init__]; [self] is the identity of the new object. *)
Definition Topic_init (self : nat) (name_ : string) (conf_ : dict)
    (offset : option Z) (codec_ : option nat) (c : Conf) : M Conf :=
  let c := register_topic self c in
  let t := {| name := name_; conf := conf_ ∪ Conf_conf c;
              starting_offset := offset; codec := codec_;
              consumer := None; producer := None |} in
  w ← get_world;
  put_world (set_topics w (<[self := t]> (w_topics w)));;
  k ← get_kafka;
  let diff := dom (conf t) ∖ KAFKA_CLASSES_PARAMS k in
  (if bool_decide (diff = ∅) then mret tt
   else emit (LogWarning ("Unexpected Topic " +:+ name_ +:+ " conf entries: "
                          +:+ String.concat "," (elements diff))));;
  mret c.

(** ** Dispatch loop *)

(** [async for msg in it]: a [Topic] runs its [__aiter__]; an asynchronous
    iterable of any other kind hands over its items as they are. *)
Definition aiter_start (it : nat) : M unit := λ w,
  match w_topics w !! it with
  | Some _ => Topic_aiter_start it w
  | None => ret tt w
  end.

Definition aiter_resume (it : nat) (item : feed_item) : M value := λ w,
  match w_topics w !! it with
  | Some _ => Topic_aiter_resume it item w
  | None =>
    match item with
    | Delivered msg => ret msg w
    | Failed e => raise e w
    end
  end.

Section dispatch.
Context `{!SetOrder}.

(** [self.handlers.get(key, [])], as the [for] statement walks it. *)
Definition handlers_for (c : Conf) (key : string) : list nat :=
  match handlers c !! key with
  | Some hs => set_iter hs
  | None => []
  end.

(** The body of the [async for]: the handlers of one message. *)
Definition deliver (c : Conf) (key : string) (kwargs : dict)
    (n : nat) (msg : value) : M unit :=
  for_ (handlers_for c key) (λ h,
    scope (λ inner r, Handled key n h msg inner (failure r))
      (await (closures c h msg kwargs))).

(** One turn of the [async for]: pull the next message, then the body. *)
Definition turn (c : Conf) (key : string) (it : nat) (kwargs : dict)
    (n : nat) (item : feed_item) : M unit :=
  msg ← scope (Pulled key n) (aiter_resume it item);
  deliver c key kwargs n msg.

Fixpoint async_for (c : Conf) (key : string) (it : nat) (kwargs : dict)
    (n : nat) (feed : list feed_item) : M unit :=
  match feed with
  | [] => mret tt
  | item :: rest =>
    turn c key it kwargs n item;;
    async_for c key it kwargs (S n) rest
  end.

(** [Conf._distribute_messages]; [feed] is what the source hands over,
    in order of arrival, until it is exhausted. *)
Definition _distribute_messages (c : Conf) (key : string) (it : nat)
    (kwargs : dict) (feed : list feed_item) : M unit :=
  scope (λ inner r, Opened key inner (failure r)) (aiter_start it);;
  async_for c key it kwargs 0 feed.

(** [Conf._shutdown] *)
Definition Conf_shutdown (c : Conf) : M unit :=
  await (emit Slept);;
  for_ (topics c) (λ t, await (Topic_shutdown t)).
End dispatch.

(** ** Running the stream: tasks on the event loop *)

(** A coroutine as the event loop sees it: it has returned, or it has a
    step to make, a piece of its code that runs without giving way, after
    which the coroutine may give way to the other tasks before it goes
    on.  A step that raises ends the coroutine with that exception. *)
Inductive Co (A : Type) : Type :=
  | Returned (a : A)
  | Step (m : M (Co A)).
Arguments Returned {A} a.
Arguments Step {A} m.

(** A coroutine awaited where no other task runs beside it: its steps are
    made one after the other. *)
Fixpoint run_co {A} (co : Co A) (w : World) : Res A :=
  match co with
  | Returned a => mkRes (Ok a) w []
  | Step m =>
    match m w with
    | mkRes (Ok co') w' tr =>
      let r := run_co co' w' in
      mkRes (outcome r) (world r) (tr ++ trace r)
    | mkRes (Raise e) w' tr => mkRes (Raise e) w' tr
    end
  end.

(** The coroutine that makes the steps [ms] in order, may give way after
    each of them, and then goes on as [next]. *)
Fixpoint in_steps (ms : list (M unit)) (next : Co unit) : Co unit :=
  match ms with
  | [] => next
  | m :: rest => Step (m;; mret (in_steps rest next))
  end.

(** How a coroutine ends once its steps are made: it returns, or it
    raises the exception that is pending. *)
Definition ending (pending : Result unit) : Co unit :=
  match pending with
  | Ok _ => Returned tt
  | Raise e => Step (raise e)
  end.

(** [Topic._shutdown] gives way at each of its two [await]s; the handle is
    read when its turn comes. *)
Definition stop_consumer (self : nat) : M unit :=
  t ← get_topic self;
  k ← get_kafka;
  match consumer t with
  | Some c => await (transport (consumer_stop k (cons_topic c)) (ConsumerStopped (cons_topic c)))
  | None => mret tt
  end.

Definition stop_producer (self : nat) : M unit :=
  t ← get_topic self;
  k ← get_kafka;
  match producer t with
  | Some p => await (transport (producer_stop k) (ProducerStopped (name t)))
  | None => mret tt
  end.

Definition Topic_shutdown_steps (self : nat) : list (M unit) :=
  [stop_consumer self; stop_producer self].

(** [Conf._shutdown]: the sleep, during which the other tasks run, and
    then the steps of each registered entity. *)
Definition Conf_shutdown_steps (c : Conf) : list (M unit) :=
  emit Slept :: (topics c ≫= Topic_shutdown_steps).

Section tasks.
Context `{!SetOrder}.

(** The call of one handler on a message, awaited. *)
Definition handler_step (c : Conf) (key : string) (kwargs : dict)
    (n : nat) (msg : value) (h : nat) : M unit :=
  scope (λ inner r, Handled key n h msg inner (failure r))
    (await (closures c h msg kwargs)).

(** [Conf._distribute_messages] as a task: it may give way once the source
    is opened, each time a message has arrived, and after each handler.
    A handler is one step: what goes on inside it is given by the closure
    as a whole. *)
Fixpoint async_for_co (c : Conf) (key : string) (it : nat) (kwargs : dict)
    (n : nat) (feed : list feed_item) : Co unit :=
  match feed with
  | [] => Returned tt
  | item :: rest =>
    Step (msg ← scope (Pulled key n) (aiter_resume it item);
          mret (in_steps (map (handler_step c key kwargs n msg) (handlers_for c key))
                  (async_for_co c key it kwargs (S n) rest)))
  end.

Definition _distribute_messages_co (c : Conf) (key : string) (it : nat)
    (kwargs : dict) (feed : list feed_item) : Co unit :=
  Step (scope (λ inner r, Opened key inner (failure r)) (aiter_start it);;
        mret (async_for_co c key it kwargs 0 feed)).

(** A coroutine that awaits [gather] once: the coroutines it hands to
    [gather]; how it goes on when the await has ended, with the result or
    the exception of the await; and what it does when it is cancelled at
    the await. *)
Record Gathering := {
  gathered : list (Co unit);
  resumed : Result unit → Co unit;
  cancelled : Co unit }.

(** [Conf._start]: [feeds] is what each source hands over.  After the
    await, [except KeyboardInterrupt: pass] and then the [finally] clause;
    on a cancellation, the [finally] clause alone. *)
Definition _start (c : Conf) (kwargs : dict) (feeds : nat → list feed_item)
    : Gathering :=
  {| gathered :=
       map (λ ki : string * nat,
              _distribute_messages_co c ki.1 ki.2 kwargs (feeds ki.2))
           (elements (iterables c));
     resumed := λ awaited,
       in_steps (Conf_shutdown_steps c)
         (ending (match awaited with
                  | Raise e => if is_KeyboardInterrupt e then Ok tt else Raise e
                  | Ok _ => Ok tt
                  end));
     cancelled := in_steps (Conf_shutdown_steps c) (Returned tt) |}.

(** [stream] *)
Definition stream (c : Conf) (kwargs : dict) (feeds : nat → list feed_item)
    : Gathering :=
  _start c kwargs feeds.
End tasks.

(** *** The event loop *)

(** The outcome of a coroutine as a value: what the event loop, or an
    [except] clause, gets to see. *)
Definition attempt {A} (m : M A) : M (Result A) := λ w,
  let r := m w in mkRes (Ok (outcome r)) (world r) (trace r).

(** One step of a task: what is left of it, when it has not ended. *)
Definition advance (co : Co unit) : M (option (Co unit)) :=
  match co with
  | Returned _ => mret None
  | Step m =>
    co' ← m;
    mret (match co' with Returned _ => None | Step _ => Some co' end)
  end.

(** Where the awaiting coroutine is: at its [await gather(...)]; or past
    it, [rest] being what is left of it and [entered] telling whether it
    has run since the await ended. *)
Inductive start_state :=
  | AtGather
  | Past (entered : bool) (rest : Co unit).

Definition all_ended (ts : list (option (Co unit))) : bool :=
  forallb (λ t, match t with None => true | Some _ => false end) ts.

(** [gather] without [return_exceptions]: the await ends when every task
    has returned, or with the first exception that a task raises; the
    tasks that have not ended are left running. *)
Definition gather_returned (main : Gathering) (ts : list (option (Co unit)))
    (st : start_state) : start_state :=
  match st with
  | AtGather => if all_ended ts then Past false (resumed main (Ok tt)) else AtGather
  | _ => st
  end.

Definition gather_raised (main : Gathering) (e : exn) (st : start_state)
    : start_state :=
  match st with
  | AtGather => Past false (resumed main (Raise e))
  | _ => st
  end.

(** A [KeyboardInterrupt] raised in a task is not kept for [gather] alone:
    the task re-raises it through the event loop, which stops.  [run] then
    cancels the tasks that have not ended and lets them finish: the
    awaiting coroutine, if it has not run since its await, has the
    interrupt (when another task was left) or the cancellation raised at
    the await, and its [finally] clause runs with no task beside it; if it
    is further on, the cancellation ends it where it is.  Whatever the
    coroutine ends with, the caller of [run] gets the interrupt. *)
Definition interrupted (main : Gathering) (st : start_state) : M unit :=
  match st with
  | Past true _ => raise KeyboardInterrupt
  | _ => attempt (run_co (cancelled main));; raise KeyboardInterrupt
  end.

(** When the schedule is used up, the tasks that are left run one after
    the other, and then the awaiting coroutine. *)
Fixpoint settle_tasks (main : Gathering) (ts : list (option (Co unit))) : M unit :=
  match ts with
  | [] => run_co (resumed main (Ok tt))
  | None :: rest => settle_tasks main rest
  | Some co :: rest =>
    o ← attempt (run_co co);
    match o with
    | Ok _ => settle_tasks main rest
    | Raise e =>
      if is_KeyboardInterrupt e then interrupted main AtGather
      else run_co (resumed main (Raise e))
    end
  end.

Definition settle (main : Gathering) (ts : list (option (Co unit)))
    (st : start_state) : M unit :=
  match st with
  | AtGather => settle_tasks main ts
  | Past _ rest => run_co rest
  end.

(** The loop.  Each number of [schedule] names the task that makes the
    next step: a source task that has not ended, or else the awaiting
    coroutine, if its await has ended.  An exception other than
    [KeyboardInterrupt] raised in a task after the await has ended is
    nobody's: the task ends, the others go on.  The run ends when the
    awaiting coroutine ends, with what it returns or raises; the tasks
    that are left are cancelled. *)
Fixpoint loop (main : Gathering) (schedule : list nat)
    (ts : list (option (Co unit))) (st : start_state) : M unit :=
  match schedule with
  | [] => settle main ts st
  | i :: schedule =>
    match ts !! i with
    | Some (Some co) =>
      o ← attempt (advance co);
      match o with
      | Ok co' =>
        let ts' := <[i := co']> ts in
        loop main schedule ts' (gather_returned main ts' st)
      | Raise e =>
        if is_KeyboardInterrupt e then interrupted main st
        else loop main schedule (<[i := None]> ts) (gather_raised main e st)
      end
    | _ =>
      match st with
      | AtGather => loop main schedule ts st
      | Past _ rest =>
        more ← advance rest;
        match more with
        | None => mret tt
        | Some rest' => loop main schedule ts (Past true rest')
        end
      end
    end
  end.

(** [asyncio.run(main)] under the schedule [schedule]. *)
Definition run (main : Gathering) (schedule : list nat) : M unit :=
  let ts := Some <$> gathered main in
  loop main schedule ts (gather_returned main ts AtGather).

(** * Vocabulary of the properties *)

(** ** Reading a trace *)

(** A run follows a script, for a way [π] of reading its events: what it
    did is a beginning of the script, and all of it when it returned. *)
Definition follows {B} (π : event → option B) (r : Res unit) (script : list B) : Prop :=
  omap π (trace r) `prefix_of` script
  ∧ (outcome r = Ok tt → omap π (trace r) = script).

(** The sink and the value of a call of [_sink_output]. *)
Definition read_dispatch (e : event) : option (sink_ref * value) :=
  match e with
  | Dispatched s v _ _ => Some (s, v)
  | _ => None
  end.

(** All the events of a trace, those inside calls included, in the order
    in which they happened. *)
Fixpoint flatten_event (e : event) : list event :=
  let flatten := fix flatten (tr : list event) : list event :=
    match tr with
    | [] => []
    | e :: rest => flatten_event e ++ flatten rest
    end in
  match e with
  | Opened _ inner _ | Pulled _ _ inner _ | Handled _ _ _ _ inner _
  | Processed inner _ | Dispatched _ _ inner _ => e :: flatten inner
  | _ => [e]
  end.

Definition flatten (tr : list event) : list event := tr ≫= flatten_event.

(** The writes to storage sinks. *)
Definition read_write (e : event) : option (nat * value * value) :=
  match e with
  | CacheSet cache key val => Some (cache, key, val)
  | _ => None
  end.

(** A step of the dispatch loop. *)
Inductive step :=
  | Pull (key : string) (n : nat) (msg : value)
  | Handle (key : string) (n : nat) (h : nat) (msg : value).

(** The step an event at the top of the loop's trace stands for: a message
    pulled, or a handler called on a message and awaited. *)
Definition read_step (e : event) : option step :=
  match e with
  | Pulled key n _ (Ok msg) => Some (Pull key n msg)
  | Handled key n h msg _ _ => Some (Handle key n h msg)
  | _ => None
  end.

Definition read_pull (e : event) : option value :=
  match e with
  | Pulled _ _ _ (Ok msg) => Some msg
  | _ => None
  end.

Definition read_handle (e : event) : option (nat * nat) :=
  match e with
  | Handled _ n h _ _ _ => Some (n, h)
  | _ => None
  end.

(** The steps for message number [n]: it is pulled, then handed to each
    handler of [hs] in turn. *)
Definition round (key : string) (hs : list nat) (n : nat) (msg : value) : list step :=
  Pull key n msg :: map (λ h, Handle key n h msg) hs.

(** The steps for the messages [msgs], numbered from [n] on. *)
Fixpoint script (key : string) (hs : list nat) (n : nat) (msgs : list value) : list step :=
  match msgs with
  | [] => []
  | msg :: rest => round key hs n msg ++ script key hs (S n) rest
  end.

(** [msg] is what the source hands over as [item]: the item itself, or the
    same record with fields decoded. *)
Definition arrived (item : feed_item) (msg : value) : Prop :=
  match item with
  | Delivered raw =>
    msg = raw
    ∨ ∃ tp off k v k' v', raw = VRecord tp off k v ∧ msg = VRecord tp off k' v'
  | Failed _ => False
  end.

(** The source raised [e] when it was opened or asked for a message. *)
Definition source_failed (key : string) (e : exn) (tr : list event) : Prop :=
  (∃ inner, last tr = Some (Opened key inner (Some e)))
  ∨ (∃ n inner, last tr = Some (Pulled key n inner (Raise e))).

(** The source an event at the top of the loop's trace belongs to. *)
Definition event_key (e : event) : option string :=
  match e with
  | Opened key _ _ | Pulled key _ _ _ | Handled key _ _ _ _ _ => Some key
  | _ => None
  end.

(** The steps and the messages of one source, out of a trace in which the
    steps of several sources are interleaved. *)
Definition steps_of (key : string) (tr : list event) : list step :=
  omap (λ e, if decide (event_key e = Some key) then read_step e else None) tr.

Definition pulls_of (key : string) (tr : list event) : list value :=
  omap (λ e, if decide (event_key e = Some key) then read_pull e else None) tr.

(** Every source is registered under the key [str(id(it))], as [handle]
    registers it. *)
Definition keyed (c : Conf) : Prop :=
  ∀ key it, (key, it) ∈ iterables c → key = iterable_key it.

(** The transport stops of one entity: the handles it has created. *)
Definition stops (t : Topic) : list event :=
  match consumer t with
  | Some c => [ConsumerStopped (cons_topic c)]
  | None => []
  end ++
  match producer t with
  | Some _ => [ProducerStopped (name t)]
  | None => []
  end.

(** ** Consumed fields *)

(** [conf.get(setting)] is truthy: a deserializer (or serializer) of the
    caller's own is configured. *)
Definition configured (d : dict) (setting : string) : bool :=
  truthy (dict_get d setting).

(** What a consumed field must be: text when it came as bytes and no
    deserializer is configured, the field itself otherwise. *)
Definition field_as_consumed (d : dict) (setting : string) (raw out : value) : Prop :=
  match raw with
  | VBytes b =>
    if configured d setting then out = raw
    else ∃ s, bytes_decode b = Some s ∧ out = VStr s
  | _ => out = raw
  end.

(** The field needs no decoding, or is valid UTF-8. *)
Definition decodable (d : dict) (setting : string) (raw : value) : Prop :=
  match raw with
  | VBytes b => configured d setting = true ∨ is_Some (bytes_decode b)
  | _ => True
  end.

(** A two-element tuple. *)
Definition is_pair (v : value) : bool :=
  match v with VTuple [_; _] => true | _ => false end.

(** ** Calls made one after the other *)

(** The calls of [call] on the items of a list, made one after the other:
    each is made in the world that the one before left, once that one has
    returned; after a call that raised, none is made, and its exception is
    that of the run. *)
Inductive one_after_the_other {X} (call : X → M unit)
    : list X → World → Res unit → Prop :=
  | none_to_make w :
      one_after_the_other call [] w (mkRes (Ok tt) w [])
  | call_raised x xs w e :
      outcome (call x w) = Raise e →
      one_after_the_other call (x :: xs) w
        (mkRes (Raise e) (world (call x w)) (trace (call x w)))
  | call_returned x xs w r :
      outcome (call x w) = Ok tt →
      one_after_the_other call xs (world (call x w)) r →
      one_after_the_other call (x :: xs) w
        (mkRes (outcome r) (world r) (trace (call x w) ++ trace r)).

(** The call of a plain function or coroutine function used as a sink, as
    the dispatcher records it: the function is run on the value, what it
    returns is dropped, what it raises is raised. *)
Definition function_called (id : nat) (body : value → M value) (v : value)
    (w : World) : Res unit :=
  let b := body v w in
  mkRes (match outcome b with Ok _ => Ok tt | Raise e => Raise e end) (world b)
    [Dispatched (FunctionRef id) v (trace b) (failure (outcome b))].

(** Each value, in order, with each sink in order. *)
Definition each_to_every {V S} (vals : list V) (items : list S) : list (S * V) :=
  vals ≫= λ v, map (λ s, (s, v)) items.

(** ** Handles of a stream entity *)

(** The world in which the entity [self] is [t]. *)
Definition put_topic (self : nat) (t : Topic) (w : World) : World :=
  set_topics w (<[self := t]> (w_topics w)).

(** The entity as [get_consumer] and as [get_producer] leave it: with the
    codec's function, when it has a codec, in its configuration. *)
Definition with_deserializer (t : Topic) : Topic :=
  match codec t with
  | Some c =>
    set_conf t (<["value_deserializer" := VCallable (CodecDecode c)]> (conf t))
  | None => t
  end.

Definition with_serializer (t : Topic) : Topic :=
  match codec t with
  | Some c =>
    set_conf t (<["value_serializer" := VCallable (CodecEncode c)]> (conf t))
  | None => t
  end.

(** The handles that [get_consumer] and [get_producer] build for [t]. *)
Definition consumer_of (k : Kafka) (t : Topic) : Consumer :=
  {| cons_topic := name t;
     cons_conf := conf_for (consumer_params k) (conf (with_deserializer t)) |}.

Definition producer_of (k : Kafka) (t : Topic) : Producer :=
  {| prod_conf := conf_for (producer_params k) (conf (with_serializer t)) |}.

(** What a field must be when it is handed to the transport: the UTF-8
    bytes of a text for which no serializer is configured, the field
    itself otherwise. *)
Definition field_as_sent (d : dict) (setting : string) (field : value) : value :=
  match field with
  | VStr s => if configured d setting then field else VBytes (str_encode s)
  | _ => field
  end.

(** The messages handed to the transport, and the lines logged as errors. *)
Definition read_sent (e : event) : option (string * value * value) :=
  match e with
  | Sent topic key val => Some (topic, key, val)
  | _ => None
  end.

Definition read_error (e : event) : option string :=
  match e with
  | LogError text => Some text
  | _ => None
  end.

(** The line that is logged for an exception that [except Exception]
    catches. *)
Definition logged (doing : string) (topic : string) (e : exn) : list event :=
  if is_Exception e then [LogError (error_text doing topic e)] else [].

(** The entity once [__call__] has made sure of its producer, and once
    [__aiter__] has made sure of its consumer. *)
Definition with_producer (k : Kafka) (t : Topic) : Topic :=
  match producer t with
  | Some _ => t
  | None => set_producer (with_serializer t) (Some (producer_of k t))
  end.

Definition with_consumer (k : Kafka) (t : Topic) : Topic :=
  match consumer t with
  | Some _ => t
  | None => set_consumer (with_deserializer t) (Some (consumer_of k t))
  end.

(** How handing a message to the transport ends for the entity [t]: the
    message is sent, or the failure is logged, when it is an [Exception],
    and raised again. *)
Definition sending (t : Topic) (key val : value) : M unit := λ w,
  let key' := field_as_sent (conf t) "key_serializer" key in
  let val' := field_as_sent (conf t) "value_serializer" val in
  match send_and_wait (w_kafka w) (name t) key' val' with
  | None => mkRes (Ok tt) w [Sent (name t) key' val']
  | Some e => mkRes (Raise e) w (logged "producing to" (name t) e)
  end.

(** ** The declared state of a stream entity *)

(** The operations of a stream entity. *)
Inductive operation :=
  | Admin
  | GetConsumer
  | GetProducer
  | Produce (key val : value)
  | IterStart
  | IterResume (item : feed_item)
  | IterNext (item : option feed_item)
  | Shutdown.

Definition world_after (op : operation) (self : nat) (w : World) : World :=
  match op with
  | Admin => world (Topic_admin self w)
  | GetConsumer => world (Topic_get_consumer self w)
  | GetProducer => world (Topic_get_producer self w)
  | Produce key val => world (Topic_call self key val w)
  | IterStart => world (Topic_aiter_start self w)
  | IterResume item => world (Topic_aiter_resume self item w)
  | IterNext item => world (Topic_next self item w)
  | Shutdown => world (Topic_shutdown self w)
  end.

(** The handle an operation may create on first use. *)
Definition creates_consumer (op : operation) : bool :=
  match op with IterStart | IterNext _ => true | _ => false end.

Definition creates_producer (op : operation) : bool :=
  match op with Produce _ _ => true | _ => false end.

(** The configuration that an operation leaves to the entity [t]: an
    operation that builds a handle writes the codec's function, when the
    entity has a codec, into the setting that carries it to the transport. *)
Definition conf_after (op : operation) (t : Topic) : dict :=
  match op with
  | GetConsumer => conf (with_deserializer t)
  | GetProducer => conf (with_serializer t)
  | Produce _ _ =>
    match producer t with
    | Some _ => conf t
    | None => conf (with_serializer t)
    end
  | IterStart | IterNext _ =>
    match consumer t with
    | Some _ => conf t
    | None => conf (with_deserializer t)
    end
  | Admin | IterResume _ | Shutdown => conf t
  end.

(** ** The calls of the dispatch loop *)

(** The call of the handler [h] on a message, as the loop records it: the
    closure registered as [h] is run on the message and awaited; the event
    holds what it did and how it ended, and the world is as it left it. *)
Definition handler_called (c : Conf) (key : string) (kwargs : dict) (n : nat)
    (msg : value) (h : nat) (w : World) : Res unit :=
  let b := closures c h msg kwargs w in
  mkRes (outcome b) (world b) [Handled key n h msg (trace b) (failure (outcome b))].


(** The exception with which the call that an event records ended. *)
Definition raised_by (ev : event) : option exn :=
  match ev with
  | Opened _ _ raised | Handled _ _ _ _ _ raised | Dispatched _ _ _ raised => raised
  | Pulled _ _ _ got => failure got
  | Processed _ returned => failure returned
  | _ => None
  end.


(** ** The run of the stream *)

(** The exceptions with which the calls at the top of a trace ended, in
    the order of the calls. *)
Definition task_failures (tr : list event) : list exn := omap raised_by tr.

(** What the starting coroutine itself did: the events of no source. *)
Definition own (tr : list event) : list event :=
  filter (λ ev, event_key ev = None) tr.

(** The steps [ms] are made in order, each on the world as the other
    tasks have left it by then, until one raises: [o] is how that ends
    and [tr] what the steps did. *)
Inductive steps_made : list (M unit) → Result unit → list event → Prop :=
  | steps_all_made : steps_made [] (Ok tt) []
  | step_raised m ms w e :
      outcome (m w) = Raise e →
      steps_made (m :: ms) (Raise e) (trace (m w))
  | step_returned m ms w o tr :
      outcome (m w) = Ok tt →
      steps_made ms o tr →
      steps_made (m :: ms) o (trace (m w) ++ tr).

(** The coroutine of a source: each step shows in events of sources
    only, and tells in them whether it raised. *)
Inductive source_task : Co unit → Prop :=
  | source_task_returned u : source_task (Returned u)
  | source_task_step m :
      (∀ w, own (trace (m w)) = []
            ∧ task_failures (trace (m w))
              = match outcome (m w) with Ok _ => [] | Raise e => [e] end) →
      (∀ w co', outcome (m w) = Ok co' → source_task co') →
      source_task (Step m).

(** A step of the starting coroutine: it shows in events of its own, none
    of which is a call that failed. *)
Definition own_step (m : M unit) : Prop :=
  ∀ w, own (trace (m w)) = trace (m w) ∧ task_failures (trace (m w)) = [].

(** What the [except] clause of the starting coroutine leaves pending. *)
Definition caught (awaited : Result unit) : Result unit :=
  match awaited with
  | Raise e => if is_KeyboardInterrupt e then Ok tt else Raise e
  | Ok _ => Ok tt
  end.

(** A run in which a task raised [KeyboardInterrupt], which the caller
    got. *)
Definition interrupt_escaped (r : Res unit) : Prop :=
  KeyboardInterrupt ∈ task_failures (trace r) ∧ outcome r = Raise KeyboardInterrupt.

(** A run in which no task raised [KeyboardInterrupt], [ms] being the
    steps of shutdown.  The steps of shutdown were made in order until
    one raised, and the caller got the exception of that step or else the
    first exception of the tasks, if any.  Up to the first failure of a
    task ([before]) the starting coroutine did nothing; and when no task
    failed, no task did anything once shutdown had begun. *)
Definition shut_down_and_ended (ms : list (M unit)) (r : Res unit) : Prop :=
  (KeyboardInterrupt ∉ task_failures (trace r))
  ∧ (∃ o, steps_made ms o (own (trace r))
        ∧ outcome r = match o with
                      | Raise e => Raise e
                      | Ok _ => match task_failures (trace r) with
                                | e :: _ => Raise e
                                | [] => Ok tt
                                end
                      end)
  ∧ ∃ before after,
      trace r = before ++ after ∧ own before = []
      ∧ task_failures before = take 1 (task_failures (trace r))
      ∧ (task_failures (trace r) = [] → own after = after).

(** * Examples *)

(** A transport that never fails. *)
Definition kafka0 : Kafka :=
  {| consumer_params :=
       {[ "bootstrap_servers"; "group_id"; "key_deserializer"; "value_deserializer" ]};
     producer_params :=
       {[ "bootstrap_servers"; "key_serializer"; "value_serializer" ]};
     client_params := {[ "bootstrap_servers" ]};
     consumer_start := λ _, None; producer_start := None;
     send_and_wait := λ _ _ _, None;
     consumer_stop := λ _, None; producer_stop := None |}.

(** A world without entities. *)
Definition world0 : World :=
  {| w_topics := ∅; w_kafka := kafka0; w_cursors := ∅ |}.

(** A freshly declared entity, and one with a codec. *)
Definition emoji : Topic :=
  {| name := "emoji"; conf := {[ "bootstrap_servers" := VStr "localhost:29091" ]};
     starting_offset := None; codec := None; consumer := None; producer := None |}.

Definition events : Topic :=
  {| name := "events"; conf := {[ "bootstrap_servers" := VStr "localhost:29091" ]};
     starting_offset := Some READ_FROM_START; codec := Some 1;
     consumer := None; producer := None |}.

Definition world1 : World :=
  {| w_topics := {[ 7 := emoji; 8 := events ]}; w_kafka := kafka0;
     w_cursors := ∅ |}.

(** A plain function whose call leaves a mark of its own, and a processing
    function with one parameter that returns [output]. *)
Definition recorder (id : nat) : sink :=
  FunctionSink id false (λ _, emit (Effect id);; mret VNone).

Definition producing (output : value) : PyFunction :=
  {| fn_parameters := [POSITIONAL_OR_KEYWORD]; fn_is_coroutine := false;
     fn_call := λ _ _, mret output |}.

(** A processing function that returns its message. *)
Definition echo : PyFunction :=
  {| fn_parameters := [POSITIONAL_OR_KEYWORD]; fn_is_coroutine := false;
     fn_call := λ args _, mret (default VNone (head args)) |}.

(** One order in which a set may hand out its members. *)
Definition elements_order : SetOrder :=
  {| set_iter := elements; set_iter_perm := λ X, reflexivity _ |}.

(** One handler that returns its input, from the source [9], an
    asynchronous generator, to a recording function; and one that returns
    a pair, to a storage sink. *)
Definition recording : Conf := handle [9] (Collection [recorder 100]) echo 1 Conf_empty.

Definition storing : Conf :=
  handle [9] (Collection [CacheSink 5]) (producing (VTuple [VStr "k"; VStr "v"])) 1 Conf_empty.

(** Two handlers bound, one after the other, to the source [9], an
    asynchronous generator. *)
Definition two_handlers : Conf :=
  handle [9] (Collection [recorder 101]) echo 2
    (handle [9] (Collection [recorder 100]) echo 1 Conf_empty).

(** Two sources, [9] and [10], each with its handler. *)
Definition two_sources : Conf :=
  handle [10] (Collection [recorder 101]) echo 2
    (handle [9] (Collection [recorder 100]) echo 1 Conf_empty).

(** The entities [7] and [8] declared, and a handler from [7] to [8]. *)
Definition declared : Conf :=
  handle [7] (Collection [TopicSink 8]) (producing (VTuple [VStr "k"; VStr "v"])) 1
    (register_topic 8 (register_topic 7 Conf_empty)).

(** What the sources hand over in the examples: two records and then an
    interrupt on the entity [7]; two items on every other source. *)
Definition example_feeds (it : nat) : list feed_item :=
  if decide (it = 7) then
    [Delivered (VRecord "emoji" 0 (VBytes ["k"%byte]) (VBytes ["a"%byte]));
     Delivered (VRecord "emoji" 1 (VBytes ["k"%byte]) (VBytes ["b"%byte]));
     Failed KeyboardInterrupt]
  else [Delivered (VStr "x"); Delivered (VStr "y")].





(** * Properties *)

(** ** Running a coroutine *)

Lemma bind_unfold {A B} (m : M A) (k : A → M B) (w : World) :
  (m ≫= k) w =
  match outcome (m w) with
  | Ok a => mkRes (outcome (k a (world (m w)))) (world (k a (world (m w))))
              (trace (m w) ++ trace (k a (world (m w))))
  | Raise e => mkRes (Raise e) (world (m w)) (trace (m w))
  end.
Proof. reflexivity. Qed.

Lemma bind_ok {A B} (m : M A) (k : A → M B) (w w' : World) a tr :
  m w = mkRes (Ok a) w' tr →
  (m ≫= k) w = mkRes (outcome (k a w')) (world (k a w')) (tr ++ trace (k a w')).
Proof. intros Hm. rewrite bind_unfold, Hm. reflexivity. Qed.

Lemma bind_raise {A B} (m : M A) (k : A → M B) (w w' : World) e tr :
  m w = mkRes (Raise e) w' tr →
  (m ≫= k) w = mkRes (Raise e) w' tr.
Proof. intros Hm. rewrite bind_unfold, Hm. reflexivity. Qed.

Lemma scope_unfold {A} node (m : M A) w :
  scope node m w
  = mkRes (outcome (m w)) (world (m w)) [node (trace (m w)) (outcome (m w))].
Proof. reflexivity. Qed.

Lemma get_topic_ok (w : World) self t :
  w_topics w !! self = Some t → get_topic self w = mkRes (Ok t) w [].
Proof. intros H. unfold get_topic. by rewrite H. Qed.

Lemma omap_cons' {A B} (f : A → option B) (x : A) (l : list A) :
  omap f (x :: l) = match f x with Some y => y :: omap f l | None => omap f l end.
Proof. reflexivity. Qed.

Lemma swallow_KeyboardInterrupt (m : M unit) (w : World) :
  let b := try_except m is_KeyboardInterrupt (λ _, mret tt) w in
  trace b = trace (m w) ∧ world b = world (m w)
  ∧ outcome b = match outcome (m w) with
                | Raise e => if is_KeyboardInterrupt e then Ok tt else Raise e
                | Ok a => Ok a
                end.
Proof.
  unfold try_except. destruct (outcome (m w)) as [[]|e] eqn:Hm.
  - by rewrite Hm.
  - destruct (is_KeyboardInterrupt e); cbn [outcome world trace].
    + by rewrite app_nil_r.
    + by rewrite Hm.
Qed.

Lemma try_finally_unfold {A} (body : M A) (final : M unit) (w : World) :
  let b := body w in
  let f := final (world b) in
  let r := try_finally body final w in
  trace r = trace b ++ trace f ∧ world r = world f
  ∧ outcome r = match outcome f with
                | Ok _ => outcome b
                | Raise e => Raise e
                end.
Proof. unfold try_finally. by destruct (outcome (final (world (body w)))). Qed.

(** *** Decoding *)

Example decode_ascii :
  bytes_decode ["h"%byte; "i"%byte] = Some "hi".
Proof. reflexivity. Qed.

Example decode_two_byte_sequence :
  bytes_decode [xc3; xa9] = Some (String.string_of_list_byte [xc3; xa9]).
Proof. reflexivity. Qed.

Example decode_rejects_stray_byte : bytes_decode [xff] = None.
Proof. reflexivity. Qed.

Example decode_rejects_overlong : bytes_decode [xc0; x80] = None.
Proof. reflexivity. Qed.

Example decode_rejects_surrogate : bytes_decode [xed; xa0; x80] = None.
Proof. reflexivity. Qed.

Example decode_rejects_truncated : bytes_decode [xe2; x82] = None.
Proof. reflexivity. Qed.

(** *** Loops *)

Lemma for_singleton {X} (x : X) (body : X → M unit) (w : World) :
  for_ [x] body w = body x w.
Proof.
  simpl. unfold bind. destruct (body x w) as [[[]|e] w1 tr]; simpl; [|done].
  by rewrite app_nil_r.
Qed.

(** A loop follows its turns' scripts, one after the other. *)
Lemma for_follows {X B} (π : event → option B) (g : X → list B)
    (xs : list X) (body : X → M unit) (w : World) :
  (∀ x w, follows π (body x w) (g x)) →
  follows π (for_ xs body w) (xs ≫= g).
Proof.
  intros Hbody. revert w. induction xs as [|x xs IH]; intros w.
  - split; [apply prefix_nil|done].
  - simpl. change (bind (body x) (λ _, for_ xs body) w)
      with ((body x ≫= λ _, for_ xs body) w).
    rewrite bind_unfold. destruct (Hbody x w) as [Hp He].
    destruct (outcome (body x w)) as [[]|e] eqn:Ho; unfold follows; simpl.
    + destruct (IH (world (body x w))) as [IHp IHe].
      rewrite omap_app, (He eq_refl). split.
      * by apply prefix_app.
      * intros Hok. by rewrite (IHe Hok).
    + split; [|done]. by apply prefix_app_r.
Qed.

(** A loop whose turns all return, returns. *)
Lemma for_ok {X} (xs : list X) (body : X → M unit) (w : World) :
  (∀ x w, x ∈ xs → outcome (body x w) = Ok tt) →
  outcome (for_ xs body w) = Ok tt.
Proof.
  revert w. induction xs as [|x xs IH]; intros w Hbody; [done|].
  simpl. change (bind (body x) (λ _, for_ xs body) w)
    with ((body x ≫= λ _, for_ xs body) w).
  rewrite bind_unfold, (Hbody x w) by left. simpl.
  apply IH. intros y w' Hy. apply Hbody. by right.
Qed.

(** ** Stream entity *)

(** C8.  Shutting down a stream entity whose inbound and outbound handles
    were never created raises nothing, calls nothing on the transport,
    creates no handle and leaves the whole world as it was; doing it again
    changes nothing either. *)
Theorem shutdown_unused_topic (w : World) (self : nat) (t : Topic) :
  w_topics w !! self = Some t → consumer t = None → producer t = None →
  Topic_shutdown self w = mkRes (Ok tt) w []
  ∧ (Topic_shutdown self;; Topic_shutdown self) w = mkRes (Ok tt) w [].
Proof.
  intros Ht Hc Hp.
  assert (H1 : Topic_shutdown self w = mkRes (Ok tt) w []).
  { unfold Topic_shutdown.
    rewrite (bind_ok _ _ _ _ _ _ (get_topic_ok _ _ _ Ht)). simpl.
    rewrite Hc, Hp. reflexivity. }
  split; [done|].
  rewrite (bind_ok _ _ _ _ _ _ H1). simpl. by rewrite H1.
Qed.

Lemma shutdown_unused_topic_witness :
  Topic_shutdown 7 world1 = mkRes (Ok tt) world1 []
  ∧ (Topic_shutdown 7;; Topic_shutdown 7) world1 = mkRes (Ok tt) world1 [].
Proof.
  apply (shutdown_unused_topic world1 7 emoji); reflexivity.
Defined.

Lemma decode_field_spec (d : dict) (setting : string) (raw : value) (w : World) :
  (∃ out, decode_field d setting raw w = mkRes (Ok out) w []
          ∧ field_as_consumed d setting raw out)
  ∨ (decode_field d setting raw w = mkRes (Raise UnicodeDecodeError) w []
     ∧ ¬ decodable d setting raw).
Proof.
  unfold decode_field, field_as_consumed, decodable, configured.
  destruct raw; try (left; eexists; split; reflexivity).
  destruct (truthy (dict_get d setting)); simpl.
  - left. eexists. split; reflexivity.
  - destruct (bytes_decode b) as [s|] eqn:Hb.
    + left. exists (VStr s). split; [reflexivity|]. by exists s.
    + right. split; [reflexivity|]. intros [?|[? ?]]; discriminate.
Qed.

(** C7.  A message that the entity's iteration yields has each of its key
    and value decoded to text when the field came from the transport as
    bytes and the configuration holds no deserializer for it, and as it
    came when a deserializer is configured or the field is not bytes; the
    message is yielded whenever the fields to decode are valid UTF-8. *)
Theorem consumed_fields_decoded (self : nat) (t : Topic) (w : World)
    (tp : string) (off : Z) (k v : value) :
  w_topics w !! self = Some t →
  let r := Topic_aiter_resume self (Delivered (VRecord tp off k v)) w in
  (∀ msg, outcome r = Ok msg →
     ∃ k' v', msg = VRecord tp off k' v'
       ∧ field_as_consumed (conf t) "key_deserializer" k k'
       ∧ field_as_consumed (conf t) "value_deserializer" v v')
  ∧ (decodable (conf t) "key_deserializer" k →
     decodable (conf t) "value_deserializer" v →
     ∃ msg, outcome r = Ok msg)
  ∧ world r = w.
Proof.
  intros Ht r. subst r. unfold Topic_aiter_resume, try_except.
  rewrite (bind_ok _ _ _ _ _ _ (get_topic_ok _ _ _ Ht)). simpl.
  destruct (decode_field_spec (conf t) "key_deserializer" k w)
    as [(k' & Hk & Hk')|[Hk Hk']].
  - rewrite (bind_ok _ _ _ _ _ _ Hk). simpl.
    rewrite (bind_ok _ _ _ _ _ _ (get_topic_ok _ _ _ Ht)). simpl.
    destruct (decode_field_spec (conf t) "value_deserializer" v w)
      as [(v' & Hv & Hv')|[Hv Hv']].
    + rewrite (bind_ok _ _ _ _ _ _ Hv). simpl. split; [|split; [|done]].
      * intros msg [= <-]. eauto.
      * eauto.
    + rewrite (bind_raise _ _ _ _ _ _ Hv). simpl.
      rewrite (bind_ok _ _ _ _ _ _ (get_topic_ok _ _ _ Ht)). simpl.
      split; [|split; [|done]]; [discriminate|]. intros _ Hd. by destruct Hv'.
  - rewrite (bind_raise _ _ _ _ _ _ Hk). simpl.
    rewrite (bind_ok _ _ _ _ _ _ (get_topic_ok _ _ _ Ht)). simpl.
    split; [|split; [|done]]; [discriminate|]. intros Hd. by destruct Hk'.
Qed.

Lemma consumed_fields_decoded_witness :
  ∃ msg, outcome (Topic_aiter_resume 7
                    (Delivered (VRecord "emoji" 0 (VBytes ["k"%byte]) (VInt 5)))
                    world1)
         = Ok msg.
Proof.
  destruct (consumed_fields_decoded 7 emoji world1 "emoji" 0
              (VBytes ["k"%byte]) (VInt 5) eq_refl) as (_ & Hd & _).
  apply Hd.
  - right. vm_compute. eauto.
  - exact I.
Defined.

(** An entity with a codec has a value deserializer configured once its
    consumer is created, so that its values pass through as the codec
    made them. *)
Lemma codec_configures_deserializer (self : nat) (t : Topic) (w : World) (c : nat) :
  w_topics w !! self = Some t → codec t = Some c → consumer t = None →
  ∃ t', w_topics (world (Topic_aiter_start self w)) !! self = Some t'
        ∧ configured (conf t') "value_deserializer" = true
        ∧ conf t' !! "key_deserializer" = conf t !! "key_deserializer".
Proof.
  intros Ht Hc Hn. unfold Topic_aiter_start.
  rewrite (bind_ok _ _ _ _ _ _ (get_topic_ok _ _ _ Ht)). cbn [outcome world trace app].
  rewrite Hn.
  replace (bool_decide (is_Some (None : option Consumer))) with false by done.
  cbn [negb].
  set (t1 := set_conf t (<["value_deserializer" := VCallable (CodecDecode c)]> (conf t))).
  set (w1 := set_topics w (<[self := t1]> (w_topics w))).
  assert (Hg : world (Topic_get_consumer self w) = w1
               ∧ ∀ x, outcome (Topic_get_consumer self w) = Ok x → True).
  { unfold Topic_get_consumer, await.
    rewrite (bind_ok _ _ _ _ _ _ (get_topic_ok _ _ _ Ht)). cbn [outcome world trace app].
    rewrite bind_unfold. cbn [get_kafka outcome world trace app].
    rewrite Hc. rewrite bind_unfold. unfold update_topic at 1 2 3. rewrite Ht.
    cbn [outcome world trace app]. fold t1. fold w1.
    assert (Ht1 : w_topics w1 !! self = Some t1) by apply lookup_insert_eq.
    rewrite (bind_ok _ _ _ _ _ _ (get_topic_ok _ _ _ Ht1)). cbn [outcome world trace app].
    rewrite bind_unfold. split; [|done].
    destruct (consumer_start (w_kafka w) (name t1)); reflexivity. }
  destruct Hg as [Hw1 _].
  assert (Ht1 : w_topics w1 !! self = Some t1) by apply lookup_insert_eq.
  rewrite bind_unfold. unfold await. rewrite Hw1.
  destruct (outcome (Topic_get_consumer self w)) as [cons|e]; cbn [world].
  - unfold update_topic. rewrite Ht1. cbn [world set_topics w_topics].
    eexists. split; [apply lookup_insert_eq|]. cbn [set_consumer conf t1 set_conf].
    unfold configured, dict_get. rewrite lookup_insert_eq.
    split; [done|]. by rewrite lookup_insert_ne.
  - exists t1. split; [done|]. cbn [conf t1 set_conf].
    unfold configured, dict_get. rewrite lookup_insert_eq.
    split; [done|]. by rewrite lookup_insert_ne.
Qed.

(** ** Handles of a stream entity *)

Lemma put_topic_id self t w : w_topics w !! self = Some t → put_topic self t w = w.
Proof.
  intros Ht. unfold put_topic, set_topics. rewrite insert_id by done. by destruct w.
Qed.

Lemma put_topic_put self t t' w :
  put_topic self t (put_topic self t' w) = put_topic self t w.
Proof. unfold put_topic, set_topics. cbn. by rewrite insert_insert_eq. Qed.

Lemma put_topic_lookup self t w : w_topics (put_topic self t w) !! self = Some t.
Proof. apply lookup_insert_eq. Qed.

Lemma put_topic_other self other t w :
  other ≠ self → w_topics (put_topic self t w) !! other = w_topics w !! other.
Proof. intros Hne. cbn. by rewrite lookup_insert_ne. Qed.

Lemma update_topic_run self t f w :
  w_topics w !! self = Some t →
  update_topic self f w = mkRes (Ok tt) (put_topic self (f t) w) [].
Proof. intros Ht. unfold update_topic. by rewrite Ht. Qed.

(** [get_consumer], run: the codec's [decode] is written into the entity's
    configuration, the handle is built and started. *)
Lemma get_consumer_run self t w :
  w_topics w !! self = Some t →
  Topic_get_consumer self w =
    match consumer_start (w_kafka w) (name t) with
    | Some e => mkRes (Raise e) (put_topic self (with_deserializer t) w) []
    | None =>
      mkRes (Ok (consumer_of (w_kafka w) t)) (put_topic self (with_deserializer t) w)
        [ConsumerStarted (name t)]
    end.
Proof.
  intros Ht. unfold Topic_get_consumer, await.
  rewrite (bind_ok _ _ _ _ _ _ (get_topic_ok _ _ _ Ht)). cbn [outcome world trace app].
  rewrite bind_unfold. cbn [get_kafka outcome world trace app].
  assert (Hstep : (match codec t with
                   | Some c =>
                     update_topic self (λ t,
                       set_conf t (<["value_deserializer" := VCallable (CodecDecode c)]> (conf t)))
                   | None => mret tt
                   end) w
                  = mkRes (Ok tt) (put_topic self (with_deserializer t) w) []).
  { unfold with_deserializer. destruct (codec t) as [c|].
    - by rewrite (update_topic_run _ _ _ _ Ht).
    - by rewrite put_topic_id. }
  rewrite (bind_ok _ _ _ _ _ _ Hstep). cbn [outcome world trace app].
  rewrite (bind_ok _ _ _ _ _ _ (get_topic_ok _ _ _ (put_topic_lookup _ _ _))).
  cbn [outcome world trace app].
  assert (Hn : name (with_deserializer t) = name t).
  { unfold with_deserializer. by destruct (codec t). }
  rewrite Hn. rewrite bind_unfold.
  destruct (consumer_start (w_kafka w) (name t)) as [e|]; reflexivity.
Qed.

Lemma get_producer_run self t w :
  w_topics w !! self = Some t →
  Topic_get_producer self w =
    match producer_start (w_kafka w) with
    | Some e => mkRes (Raise e) (put_topic self (with_serializer t) w) []
    | None =>
      mkRes (Ok (producer_of (w_kafka w) t)) (put_topic self (with_serializer t) w)
        [ProducerStarted (name t)]
    end.
Proof.
  intros Ht. unfold Topic_get_producer, await.
  rewrite (bind_ok _ _ _ _ _ _ (get_topic_ok _ _ _ Ht)). cbn [outcome world trace app].
  rewrite bind_unfold. cbn [get_kafka outcome world trace app].
  assert (Hstep : (match codec t with
                   | Some c =>
                     update_topic self (λ t,
                       set_conf t (<["value_serializer" := VCallable (CodecEncode c)]> (conf t)))
                   | None => mret tt
                   end) w
                  = mkRes (Ok tt) (put_topic self (with_serializer t) w) []).
  { unfold with_serializer. destruct (codec t) as [c|].
    - by rewrite (update_topic_run _ _ _ _ Ht).
    - by rewrite put_topic_id. }
  rewrite (bind_ok _ _ _ _ _ _ Hstep). cbn [outcome world trace app].
  rewrite (bind_ok _ _ _ _ _ _ (get_topic_ok _ _ _ (put_topic_lookup _ _ _))).
  cbn [outcome world trace app].
  assert (Hn : name (with_serializer t) = name t).
  { unfold with_serializer. by destruct (codec t). }
  rewrite Hn. rewrite bind_unfold.
  destruct (producer_start (w_kafka w)) as [e|]; reflexivity.
Qed.

Lemma logged_run {A} doing topic e w :
  try_except (raise e) is_Exception
    (λ e, emit (LogError (error_text doing topic e));; raise e) w
  = mkRes (Raise (A := A) e) w (logged doing topic e).
Proof. unfold try_except, logged. cbn. by destruct (is_Exception e). Qed.

(** [__call__], from the point at which the producer exists. *)
Lemma sending_run self t key val w :
  w_topics w !! self = Some t →
  (t ← get_topic self;
   k ← get_kafka;
   let key :=
     match key with
     | VStr s =>
       if negb (truthy (dict_get (conf t) "key_serializer"))
       then VBytes (str_encode s) else key
     | _ => key
     end in
   let val :=
     match val with
     | VStr s =>
       if negb (truthy (dict_get (conf t) "value_serializer"))
       then VBytes (str_encode s) else val
     | _ => val
     end in
   try_except
     (transport (send_and_wait k (name t) key val) (Sent (name t) key val))
     is_Exception
     (λ e, emit (LogError (error_text "producing to" (name t) e));; raise e)) w
  = sending t key val w.
Proof.
  intros Ht.
  rewrite (bind_ok _ _ _ _ _ _ (get_topic_ok _ _ _ Ht)). cbn [outcome world trace app].
  rewrite bind_unfold. cbn [get_kafka outcome world trace app].
  unfold sending.
  replace (match key with
           | VStr s =>
             if negb (truthy (dict_get (conf t) "key_serializer"))
             then VBytes (str_encode s) else key
           | _ => key
           end) with (field_as_sent (conf t) "key_serializer" key)
    by (unfold field_as_sent, configured; destruct key; try done;
        by destruct (truthy _)).
  replace (match val with
           | VStr s =>
             if negb (truthy (dict_get (conf t) "value_serializer"))
             then VBytes (str_encode s) else val
           | _ => val
           end) with (field_as_sent (conf t) "value_serializer" val)
    by (unfold field_as_sent, configured; destruct val; try done;
        by destruct (truthy _)).
  destruct (send_and_wait (w_kafka w) (name t) _ _) as [e|]; cbn [transport].
  - rewrite logged_run. reflexivity.
  - reflexivity.
Qed.

(** [__call__], run. *)
Lemma Topic_call_run self t key val w :
  w_topics w !! self = Some t →
  Topic_call self key val w =
    match producer t with
    | Some _ => sending t key val w
    | None =>
      match producer_start (w_kafka w) with
      | Some e => mkRes (Raise e) (put_topic self (with_serializer t) w) []
      | None =>
        let t' := with_producer (w_kafka w) t in
        let r := sending t' key val (put_topic self t' w) in
        mkRes (outcome r) (world r) (ProducerStarted (name t) :: trace r)
      end
    end.
Proof.
  intros Ht. unfold Topic_call, await.
  rewrite (bind_ok _ _ _ _ _ _ (get_topic_ok _ _ _ Ht)). cbn [outcome world trace app].
  destruct (producer t) as [p|] eqn:Hp.
  - replace (bool_decide (is_Some (Some p))) with true by done. cbn [negb].
    rewrite bind_unfold. cbn [mret M_ret ret outcome world trace app].
    rewrite (sending_run _ _ _ _ _ Ht). by destruct (sending t key val w).
  - replace (bool_decide (is_Some (None : option Producer))) with false by done.
    cbn [negb].
    rewrite bind_unfold. rewrite (bind_unfold (Topic_get_producer self)).
    rewrite (get_producer_run _ _ _ Ht).
    destruct (producer_start (w_kafka w)) as [e|]; cbn [outcome world trace app];
      [reflexivity|].
    rewrite (update_topic_run _ _ _ _ (put_topic_lookup _ _ _)).
    cbn [outcome world trace app]. rewrite put_topic_put.
    unfold with_producer. rewrite Hp.
    rewrite (sending_run _ _ _ _ _ (put_topic_lookup _ _ _)). reflexivity.
Qed.

(** The body of [__aiter__] up to its loop, run. *)
Lemma Topic_aiter_start_run self t w :
  w_topics w !! self = Some t →
  Topic_aiter_start self w =
    match consumer t with
    | Some _ => mkRes (Ok tt) w []
    | None =>
      match consumer_start (w_kafka w) (name t) with
      | Some e => mkRes (Raise e) (put_topic self (with_deserializer t) w) []
      | None =>
        mkRes (Ok tt) (put_topic self (with_consumer (w_kafka w) t) w)
          [ConsumerStarted (name t)]
      end
    end.
Proof.
  intros Ht. unfold Topic_aiter_start.
  rewrite (bind_ok _ _ _ _ _ _ (get_topic_ok _ _ _ Ht)). cbn [outcome world trace app].
  destruct (consumer t) as [c|] eqn:Hc.
  - reflexivity.
  - replace (bool_decide (is_Some (None : option Consumer))) with false by done.
    cbn [negb]. unfold await. rewrite bind_unfold.
    rewrite (get_consumer_run _ _ _ Ht).
    destruct (consumer_start (w_kafka w) (name t)) as [e|]; cbn [outcome world trace app];
      [reflexivity|].
    rewrite (update_topic_run _ _ _ _ (put_topic_lookup _ _ _)).
    cbn [outcome world trace app]. rewrite put_topic_put.
    unfold with_consumer. by rewrite Hc.
Qed.

(** A failure of the transport while consuming, run. *)
Lemma Topic_aiter_resume_failed self t e w :
  w_topics w !! self = Some t →
  Topic_aiter_resume self (Failed e) w
  = mkRes (Raise e) w (logged "consuming from" (name t) e).
Proof.
  intros Ht. unfold Topic_aiter_resume, try_except, logged. cbn.
  destruct (is_Exception e); [|done].
  rewrite (bind_ok _ _ _ _ _ _ (get_topic_ok _ _ _ Ht)). reflexivity.
Qed.

Lemma sending_world t key val w : world (sending t key val w) = w.
Proof. unfold sending. by destruct (send_and_wait _ _ _ _). Qed.

Lemma sending_ok t key val w :
  outcome (sending t key val w) = Ok tt →
  trace (sending t key val w)
  = [Sent (name t) (field_as_sent (conf t) "key_serializer" key)
       (field_as_sent (conf t) "value_serializer" val)].
Proof. unfold sending. by destruct (send_and_wait _ _ _ _). Qed.

Lemma sending_raise t key val w e :
  outcome (sending t key val w) = Raise e →
  trace (sending t key val w) = logged "producing to" (name t) e.
Proof. unfold sending. destruct (send_and_wait _ _ _ _); [|done]. by intros [= ->]. Qed.

Lemma with_producer_held k t : is_Some (producer (with_producer k t)).
Proof. unfold with_producer. destruct (producer t) eqn:Hp; [by rewrite Hp|done]. Qed.

Lemma with_serializer_name t : name (with_serializer t) = name t.
Proof. unfold with_serializer. by destruct (codec t). Qed.

Lemma with_producer_name k t : name (with_producer k t) = name t.
Proof.
  unfold with_producer. destruct (producer t); [done|]. apply with_serializer_name.
Qed.

Lemma with_producer_conf k t :
  conf (with_producer k t)
  = match producer t with Some _ => conf t | None => conf (with_serializer t) end.
Proof. unfold with_producer. by destruct (producer t). Qed.

(** [__call__], when it returns. *)
Lemma Topic_call_ok self t key val w :
  w_topics w !! self = Some t →
  let r := Topic_call self key val w in
  let t' := with_producer (w_kafka w) t in
  outcome r = Ok tt →
  world r = put_topic self t' w
  ∧ omap read_sent (trace r)
    = [(name t, field_as_sent (conf t') "key_serializer" key,
                field_as_sent (conf t') "value_serializer" val)]
  ∧ omap read_error (trace r) = [].
Proof.
  intros Ht r t'. subst r t'. rewrite (Topic_call_run _ _ _ _ _ Ht).
  destruct (producer t) as [p|] eqn:Hp.
  - assert (with_producer (w_kafka w) t = t) as ->
      by (unfold with_producer; by rewrite Hp).
    intros Hok. rewrite sending_world, (sending_ok _ _ _ _ Hok).
    by rewrite (put_topic_id _ _ _ Ht).
  - destruct (producer_start (w_kafka w)) as [e|]; [discriminate|].
    cbn [outcome world trace]. intros Hok.
    by rewrite sending_world, (sending_ok _ _ _ _ Hok), with_producer_name.
Qed.

(** One turn of the loop of [__aiter__], run: the world is left as it is,
    and what is logged is the failure, if there is one. *)
Lemma Topic_aiter_resume_run self t item w :
  w_topics w !! self = Some t →
  let r := Topic_aiter_resume self item w in
  world r = w
  ∧ trace r = match outcome r with
              | Ok _ => []
              | Raise e => logged "consuming from" (name t) e
              end.
Proof.
  intros Ht r. subst r. destruct item as [msg|e].
  2:{ by rewrite (Topic_aiter_resume_failed _ _ _ _ Ht). }
  unfold Topic_aiter_resume, try_except.
  destruct msg as [| | | | | | | |tp off k v|];
    try (cbn; rewrite (bind_ok _ _ _ _ _ _ (get_topic_ok _ _ _ Ht)); by cbn).
  rewrite (bind_ok _ _ _ _ _ _ (get_topic_ok _ _ _ Ht)). cbn [outcome world trace app].
  destruct (decode_field_spec (conf t) "key_deserializer" k w)
    as [(k' & Hk & _)|[Hk _]].
  - rewrite (bind_ok _ _ _ _ _ _ Hk). cbn [outcome world trace app].
    rewrite (bind_ok _ _ _ _ _ _ (get_topic_ok _ _ _ Ht)). cbn [outcome world trace app].
    destruct (decode_field_spec (conf t) "value_deserializer" v w)
      as [(v' & Hv & _)|[Hv _]].
    + rewrite (bind_ok _ _ _ _ _ _ Hv). by cbn.
    + rewrite (bind_raise _ _ _ _ _ _ Hv). cbn.
      rewrite (bind_ok _ _ _ _ _ _ (get_topic_ok _ _ _ Ht)). by cbn.
  - rewrite (bind_raise _ _ _ _ _ _ Hk). cbn.
    rewrite (bind_ok _ _ _ _ _ _ (get_topic_ok _ _ _ Ht)). by cbn.
Qed.

Lemma Topic_shutdown_run self t w :
  w_topics w !! self = Some t →
  Topic_shutdown self w =
    (match consumer t with
     | Some c =>
       transport (consumer_stop (w_kafka w) (cons_topic c))
         (ConsumerStopped (cons_topic c))
     | None => mret tt
     end;;
     match producer t with
     | Some p => transport (producer_stop (w_kafka w)) (ProducerStopped (name t))
     | None => mret tt
     end) w.
Proof.
  intros Ht. unfold Topic_shutdown, await.
  rewrite (bind_ok _ _ _ _ _ _ (get_topic_ok _ _ _ Ht)). cbn [outcome world trace app].
  rewrite bind_unfold. cbn [get_kafka outcome world trace app].
  match goal with |- context [outcome ?x] => by destruct x end.
Qed.

Lemma Topic_shutdown_world self t w :
  w_topics w !! self = Some t → world (Topic_shutdown self w) = w.
Proof.
  intros Ht. rewrite (Topic_shutdown_run _ _ _ Ht), bind_unfold.
  destruct (consumer t) as [c|]; cbn.
  - destruct (consumer_stop _ _); cbn; [done|].
    destruct (producer t); cbn; [|done]. by destruct (producer_stop _).
  - destruct (producer t); cbn; [|done]. by destruct (producer_stop _).
Qed.

(** *** The declared state of the entity *)

Lemma with_deserializer_state t :
  name (with_deserializer t) = name t
  ∧ starting_offset (with_deserializer t) = starting_offset t
  ∧ codec (with_deserializer t) = codec t
  ∧ consumer (with_deserializer t) = consumer t
  ∧ producer (with_deserializer t) = producer t.
Proof. unfold with_deserializer. destruct (codec t) eqn:Hc; cbn; auto. Qed.

Lemma with_serializer_state t :
  name (with_serializer t) = name t
  ∧ starting_offset (with_serializer t) = starting_offset t
  ∧ codec (with_serializer t) = codec t
  ∧ consumer (with_serializer t) = consumer t
  ∧ producer (with_serializer t) = producer t.
Proof. unfold with_serializer. destruct (codec t) eqn:Hc; cbn; auto. Qed.

(** What an operation leaves of the entity [t]: [t'] stands for it in the
    world after the operation. *)
Lemma operation_run (op : operation) (self : nat) (t : Topic) (w : World) :
  w_topics w !! self = Some t →
  ∃ t', world_after op self w = put_topic self t' w
    ∧ name t' = name t ∧ starting_offset t' = starting_offset t
    ∧ codec t' = codec t ∧ conf t' = conf_after op t
    ∧ (creates_consumer op = false → consumer t' = consumer t)
    ∧ (creates_producer op = false → producer t' = producer t).
Proof.
  intros Ht.
  assert (Hsame : ∃ t', w = put_topic self t' w
            ∧ name t' = name t ∧ starting_offset t' = starting_offset t
            ∧ codec t' = codec t ∧ conf t' = conf t
            ∧ consumer t' = consumer t ∧ producer t' = producer t).
  { exists t. by rewrite (put_topic_id _ _ _ Ht). }
  destruct (with_deserializer_state t) as (Hdn & Hdo & Hdc & Hdk & Hdp).
  destruct (with_serializer_state t) as (Hsn & Hso & Hsc & Hsk & Hsp).
  destruct op as [| | |key val| |item|item|];
    cbn [world_after conf_after creates_consumer creates_producer].
  - unfold Topic_admin. rewrite (bind_ok _ _ _ _ _ _ (get_topic_ok _ _ _ Ht)).
    cbn [world]. destruct Hsame as (t' & ? & ? & ? & ? & ? & ? & ?). by exists t'.
  - rewrite (get_consumer_run _ _ _ Ht). exists (with_deserializer t).
    by destruct (consumer_start _ _).
  - rewrite (get_producer_run _ _ _ Ht). exists (with_serializer t).
    by destruct (producer_start _).
  - rewrite (Topic_call_run _ _ _ _ _ Ht). destruct (producer t) as [p|] eqn:Hp.
    + rewrite sending_world. destruct Hsame as (t' & ? & ? & ? & ? & ? & ? & ?).
      exists t'. repeat split; try done; congruence.
    + destruct (producer_start _).
      * exists (with_serializer t). cbn [world]. repeat split; try done; congruence.
      * cbn [world]. rewrite sending_world. exists (with_producer (w_kafka w) t).
        unfold with_producer. rewrite Hp. cbn [set_producer name starting_offset
          codec conf consumer]. by repeat split.
  - rewrite (Topic_aiter_start_run _ _ _ Ht). destruct (consumer t) as [c|] eqn:Hc.
    + destruct Hsame as (t' & ? & ? & ? & ? & ? & ? & ?). exists t'.
      cbn [world]. repeat split; try done; congruence.
    + destruct (consumer_start _ _); cbn [world].
      * exists (with_deserializer t). by repeat split.
      * exists (with_consumer (w_kafka w) t). unfold with_consumer. rewrite Hc.
        cbn [set_consumer name starting_offset codec conf producer]. by repeat split.
  - destruct (Topic_aiter_resume_run self t item w Ht) as [-> _].
    destruct Hsame as (t' & ? & ? & ? & ? & ? & ? & ?). by exists t'.
  - unfold Topic_next. rewrite bind_unfold, (Topic_aiter_start_run _ _ _ Ht).
    assert (Hrest : ∀ t1, ∀ w1, w_topics w1 !! self = Some t1 →
              world (match item with
                     | Some i => Topic_aiter_resume self i
                     | None => raise StopAsyncIteration
                     end w1) = w1).
    { intros t1 w1 Ht1. destruct item as [i|]; [|done].
      by destruct (Topic_aiter_resume_run self t1 i w1 Ht1) as [-> _]. }
    destruct (consumer t) as [c|] eqn:Hc.
    + cbn [outcome world trace]. rewrite (Hrest t w Ht).
      destruct Hsame as (t' & ? & ? & ? & ? & ? & ? & ?). exists t'.
      repeat split; try done; congruence.
    + destruct (consumer_start _ _); cbn [outcome world trace].
      * exists (with_deserializer t). by repeat split.
      * rewrite (Hrest _ _ (put_topic_lookup _ _ _)).
        exists (with_consumer (w_kafka w) t). unfold with_consumer. rewrite Hc.
        cbn [set_consumer name starting_offset codec conf producer]. by repeat split.
  - rewrite (Topic_shutdown_world _ _ _ Ht).
    destruct Hsame as (t' & ? & ? & ? & ? & ? & ? & ?). by exists t'.
Qed.

(** C9, as amended.  Every operation of a stream entity leaves its name,
    its starting offset and its codec as declared, leaves every other
    entity, the transport and the handle that the operation is not there
    to create as they were, and leaves the configuration as declared when
    no codec is declared.  When a codec is declared, building the consumer
    writes the codec's [decode] into the setting [value_deserializer] of
    the configuration, and building the producer writes the codec's
    [encode] into the setting [value_serializer], every other setting
    being left as it was: the configuration after an operation is the one
    declared unless the operation built a handle, and then it is the one
    declared with that one setting written. *)
Theorem entity_declared_state_kept (op : operation) (self : nat) (t : Topic)
    (w : World) :
  w_topics w !! self = Some t →
  let w' := world_after op self w in
  (∃ t', w_topics w' !! self = Some t'
     ∧ name t' = name t ∧ starting_offset t' = starting_offset t
     ∧ codec t' = codec t
     ∧ conf t' = conf_after op t
     ∧ (creates_consumer op = false → consumer t' = consumer t)
     ∧ (creates_producer op = false → producer t' = producer t))
  ∧ (codec t = None → conf_after op t = conf t)
  ∧ (∀ c, codec t = Some c →
       conf (with_deserializer t)
       = <["value_deserializer" := VCallable (CodecDecode c)]> (conf t)
       ∧ conf (with_serializer t)
         = <["value_serializer" := VCallable (CodecEncode c)]> (conf t))
  ∧ (∀ other, other ≠ self → w_topics w' !! other = w_topics w !! other)
  ∧ w_kafka w' = w_kafka w
  ∧ w_cursors w' = w_cursors w.
Proof.
  intros Ht w'. subst w'.
  destruct (operation_run op self t w Ht) as (t' & -> & Hrest).
  split; [exists t'; split; [apply put_topic_lookup|exact Hrest]|].
  split; [|split; [|split; [|done]]].
  - intros Hc. unfold conf_after, with_deserializer, with_serializer. rewrite Hc.
    destruct op; try done; [by destruct (producer t)|by destruct (consumer t)..].
  - intros c Hc. unfold with_deserializer, with_serializer. by rewrite Hc.
  - intros other Hne. by apply put_topic_other.
Qed.

Lemma entity_declared_state_kept_witness :
  ∃ t', w_topics (world (Topic_aiter_start 8 world1)) !! 8 = Some t'
    ∧ conf t' = <["value_deserializer" := VCallable (CodecDecode 1)]> (conf events)
    ∧ producer t' = None.
Proof.
  destruct (entity_declared_state_kept IterStart 8 events world1 eq_refl)
    as ((t' & Ht' & _ & _ & _ & Hconf & _ & Hp) & _ & Hcodec & _).
  exists t'. split; [exact Ht'|]. split.
  - rewrite Hconf. exact (proj1 (Hcodec 1 eq_refl)).
  - exact (Hp eq_refl).
Defined.

(** C9, as stated, fails: creating the consumer of an entity that has a
    codec writes the codec's [decode] into the entity's configuration. *)
Lemma creating_consumer_rewrites_conf :
  codec events = Some 1
  ∧ (w_topics world1 !! 8 ≫= λ t, conf t !! "value_deserializer") = None
  ∧ (w_topics (world (Topic_aiter_start 8 world1)) !! 8
       ≫= λ t, conf t !! "value_deserializer")
    = Some (VCallable (CodecDecode 1)).
Proof. split; [reflexivity|]. split; vm_compute; reflexivity. Qed.

(** ** Sink dispatcher *)

(** A tuple, of whatever length, is handed unpacked to the storage sink's
    call: the dispatcher looks at its being a tuple only. *)
Lemma cache_sink_tuple_forwarded (cache : nat) (items : list value) (w : World) :
  _sink_output (CacheSink cache) (VTuple items) w =
    scope (λ inner r, Dispatched (CacheRef cache) (VTuple items) inner (failure r))
      (Cache_call cache items) w.
Proof. reflexivity. Qed.

(** C4, as amended.  On a storage sink, a value that is not a tuple raises
    the sink-shape error at once: nothing is written and the world is as
    it was; a two-element pair is written directly, by one write of its
    key and value. *)
Theorem cache_sink_dispatch (cache : nat) (output : value) (w : World) :
  (is_tuple output = false →
     _sink_output (CacheSink cache) output w =
       mkRes (Raise sink_shape_error) w
         [Dispatched (CacheRef cache) output [] (Some sink_shape_error)])
  ∧ (∀ key val, output = VTuple [key; val] →
     _sink_output (CacheSink cache) output w =
       mkRes (Ok tt) w
         [Dispatched (CacheRef cache) output [CacheSet cache key val] None]).
Proof.
  split.
  - intros Hnt. destruct output; try discriminate Hnt; reflexivity.
  - intros key val ->. reflexivity.
Qed.

Lemma cache_sink_dispatch_witness :
  _sink_output (CacheSink 1) (VStr "v") world0 =
    mkRes (Raise sink_shape_error) world0
      [Dispatched (CacheRef 1) (VStr "v") [] (Some sink_shape_error)]
  ∧ _sink_output (CacheSink 1) (VTuple [VStr "k"; VStr "v"]) world0 =
    mkRes (Ok tt) world0
      [Dispatched (CacheRef 1) (VTuple [VStr "k"; VStr "v"])
         [CacheSet 1 (VStr "k") (VStr "v")] None].
Proof.
  split.
  - apply (cache_sink_dispatch 1 (VStr "v") world0). reflexivity.
  - apply (cache_sink_dispatch 1 (VTuple [VStr "k"; VStr "v"]) world0). reflexivity.
Defined.

(** C4, as stated, fails: a one-element tuple is not a two-element pair,
    yet the dispatcher does not raise the sink-shape error on it; it calls
    the storage sink, and the error is that call's [TypeError]. *)
Lemma cache_sink_non_pair_tuple :
  is_pair (VTuple [VStr "k"]) = false
  ∧ _sink_output (CacheSink 1) (VTuple [VStr "k"]) world0 =
      mkRes (Raise (TypeError "Cache.__call__() takes 2 positional arguments")) world0
        [Dispatched (CacheRef 1) (VTuple [VStr "k"]) []
           (Some (TypeError "Cache.__call__() takes 2 positional arguments"))]
  ∧ outcome (_sink_output (CacheSink 1) (VTuple [VStr "k"]) world0)
      ≠ Raise sink_shape_error.
Proof. split; [reflexivity|]. split; [reflexivity|]. discriminate. Qed.

(** ** Calls made one after the other *)

Lemma for_cons {X} (x : X) (xs : list X) (body : X → M unit) (w : World) :
  for_ (x :: xs) body w = (body x ≫= λ _, for_ xs body) w.
Proof. reflexivity. Qed.

(** A [for] loop makes the calls of its body one after the other. *)
Lemma for_one_after_the_other {X} (body : X → M unit) (xs : list X) (w : World) :
  one_after_the_other body xs w (for_ xs body w).
Proof.
  revert w. induction xs as [|x xs IH]; intros w; [constructor|].
  rewrite for_cons, bind_unfold. destruct (outcome (body x w)) as [[]|e] eqn:Ho.
  - by apply call_returned.
  - by apply call_raised.
Qed.

(** Calls made one after the other are a run of the loop: the relation
    has one run for each list and world. *)
Lemma one_after_the_other_for {X} (body : X → M unit) (xs : list X) (w : World) r :
  one_after_the_other body xs w r → r = for_ xs body w.
Proof.
  induction 1 as [w|x xs w e Ho|x xs w r Ho Hr IH].
  - reflexivity.
  - by rewrite for_cons, bind_unfold, Ho.
  - by rewrite for_cons, bind_unfold, Ho, <- IH.
Qed.

(** What was read off the calls made is a beginning of what is read off
    all the calls, and all of it when the run returned. *)
Lemma one_after_the_other_follows {X B} (π : event → option B) (g : X → list B)
    (call : X → M unit) (xs : list X) (w : World) r :
  (∀ x w, follows π (call x w) (g x)) →
  one_after_the_other call xs w r → follows π r (xs ≫= g).
Proof.
  intros Hcall Hr. rewrite (one_after_the_other_for _ _ _ _ Hr).
  by apply for_follows.
Qed.

(** When the calls before the first one that raises all return, the run
    makes these calls and that one, and raises its exception. *)
Lemma one_after_the_other_stops {X} (call : X → M unit) (before after : list X)
    (x : X) (w : World) r (e : exn) :
  one_after_the_other call (before ++ x :: after) w r →
  (∀ y w', y ∈ before → outcome (call y w') = Ok tt) →
  (∀ w', outcome (call x w') = Raise e) →
  outcome r = Raise e
  ∧ one_after_the_other call (before ++ [x]) w r.
Proof.
  intros Hr Hb Hx. revert w r Hr. induction before as [|y before IH]; intros w r Hr.
  - cbn [app] in *. inversion Hr as [|? ? ? e' Ho|? ? ? r' Ho Hr']; subst.
    + rewrite Hx in Ho. injection Ho as <-. split; [done|]. by apply call_raised.
    + by rewrite Hx in Ho.
  - cbn [app] in *. inversion Hr as [|? ? ? e' Ho|? ? ? r' Ho Hr']; subst.
    + rewrite Hb in Ho by (by left). discriminate.
    + destruct (IH (λ z w' Hz, Hb z w' (list_elem_of_further _ _ _ Hz)) _ _ Hr')
        as [He Hr''].
      split; [done|]. by apply call_returned.
Qed.

Lemma bind_ext {A B} (m : M A) (k k' : A → M B) (w : World) :
  (∀ a w', k a w' = k' a w') → (m ≫= k) w = (m ≫= k') w.
Proof. intros Hk. rewrite !bind_unfold. destruct (outcome (m w)); by rewrite ?Hk. Qed.

Lemma for_app {X} (xs ys : list X) (body : X → M unit) (w : World) :
  for_ (xs ++ ys) body w = (for_ xs body ≫= λ _, for_ ys body) w.
Proof.
  revert w. induction xs as [|x xs IH]; intros w.
  - cbn [app for_]. rewrite bind_unfold. cbn [ret outcome world trace app].
    by destruct (for_ ys body w).
  - cbn [app]. rewrite !for_cons, !bind_unfold, for_cons, bind_unfold.
    destruct (outcome (body x w)) as [[]|e] eqn:Hb; cbn [outcome world trace];
      [|done].
    rewrite IH, bind_unfold.
    destruct (outcome (for_ xs body (world (body x w)))) as [[]|e];
      cbn [outcome world trace]; by rewrite ?app_assoc.
Qed.

Lemma for_map {X Y} (g : X → Y) (xs : list X) (body : Y → M unit) (w : World) :
  for_ (map g xs) body w = for_ xs (λ x, body (g x)) w.
Proof.
  revert w. induction xs as [|x xs IH]; intros w; [done|].
  cbn [map]. rewrite !for_cons. by apply bind_ext.
Qed.

(** A loop inside a loop makes, one after the other, the calls of each
    item of the outer list with every item of the inner one. *)
Lemma for_for {V S} (vals : list V) (items : list S) (body : S → V → M unit)
    (w : World) :
  for_ vals (λ v, for_ items (λ s, body s v)) w
  = for_ (each_to_every vals items) (λ sv, body sv.1 sv.2) w.
Proof.
  revert w. induction vals as [|v vals IH]; intros w; [done|].
  unfold each_to_every. rewrite bind_cons. fold (each_to_every vals items).
  rewrite for_app, for_cons, !bind_unfold, for_map. cbn [fst snd].
  destruct (outcome (for_ items (λ s, body s v) w)) as [[]|e]; [|done].
  by rewrite IH.
Qed.

(** A run that raised: the calls before the one that raised all returned,
    and no call was made after it. *)
Lemma one_after_the_other_raised {X} (call : X → M unit) (xs : list X)
    (w : World) r (e : exn) :
  one_after_the_other call xs w r → outcome r = Raise e →
  ∃ before x after rb,
    xs = before ++ x :: after
    ∧ one_after_the_other call before w rb ∧ outcome rb = Ok tt
    ∧ outcome (call x (world rb)) = Raise e
    ∧ world r = world (call x (world rb))
    ∧ trace r = trace rb ++ trace (call x (world rb)).
Proof.
  induction 1 as [w|x xs w e' Ho|x xs w r Ho Hr IH]; cbn [outcome world trace].
  - discriminate.
  - intros [= ->]. exists [], x, xs, (mkRes (Ok tt) w []).
    split; [done|]. split; [constructor|]. by repeat split.
  - intros He. destruct (IH He) as (before & y & after & rb & -> & Hb & Hok & Hy & Hw & Ht).
    exists (x :: before), y, after,
      (mkRes (outcome rb) (world rb) (trace (call x w) ++ trace rb)).
    cbn [outcome world trace]. split; [done|].
    split; [by apply call_returned|]. split; [done|]. split; [done|].
    split; [done|]. by rewrite Ht, app_assoc.
Qed.

Lemma one_after_the_other_ext {X} (call call' : X → M unit) (xs : list X)
    (w : World) r :
  (∀ x w', call x w' = call' x w') →
  one_after_the_other call xs w r → one_after_the_other call' xs w r.
Proof.
  intros Hext. induction 1 as [w|x xs w e' Ho|x xs w r Ho Hr IH].
  - constructor.
  - rewrite Hext in *. by apply call_raised.
  - rewrite Hext in *. by apply call_returned.
Qed.

(** *** Stopping at the first failure *)




(** ** Handler binder *)

Lemma sink_output_follows (s : sink) (v : value) (w : World) :
  follows read_dispatch (_sink_output s v w) [(ref_of s, v)].
Proof. split; [|intros _]; reflexivity. Qed.

(** A function sink is called: what the dispatcher does is what the
    function does on the value. *)
Lemma function_sink_called (id : nat) (is_coroutine : bool) (body : value → M value)
    (v : value) (w : World) :
  _sink_output (FunctionSink id is_coroutine body) v w = function_called id body v w.
Proof.
  unfold _sink_output, function_called, await. rewrite scope_unfold.
  cbn [ref_of]. destruct is_coroutine; rewrite bind_unfold;
    destruct (outcome (body v w)) as [x|e] eqn:Ho;
    cbn [outcome world trace failure mret M_ret ret]; by rewrite ?app_nil_r.
Qed.

Lemma invoke_trace (f : PyFunction) (msg : value) (kwargs : dict) (w : World) :
  ∃ inner,
    trace (invoke f msg kwargs w) = [Processed inner (outcome (invoke f msg kwargs w))].
Proof. unfold invoke. rewrite scope_unfold. simpl. eauto. Qed.

Lemma invoke_no_dispatch (f : PyFunction) (msg : value) (kwargs : dict) (w : World) :
  omap read_dispatch (trace (invoke f msg kwargs w)) = [].
Proof. by destruct (invoke_trace f msg kwargs w) as [inner ->]. Qed.

(** The dispatches read off the calls of the dispatcher on pairs of a sink
    and a value. *)
Lemma dispatches_follow (pairs : list (sink * value)) (w : World) r :
  one_after_the_other (λ sv, _sink_output sv.1 sv.2) pairs w r →
  follows read_dispatch r (map (λ sv, (ref_of sv.1, sv.2)) pairs).
Proof.
  intros Hr.
  replace (map (λ sv : sink * value, (ref_of sv.1, sv.2)) pairs)
    with (pairs ≫= λ sv, [(ref_of sv.1, sv.2)]).
  - eapply one_after_the_other_follows; [|exact Hr].
    intros [s v] w'. apply sink_output_follows.
  - clear. induction pairs as [|sv pairs IH]; [done|]. by rewrite bind_cons, IH.
Qed.

(** A run of calls that all return, returns. *)
Lemma one_after_the_other_ok {X} (call : X → M unit) (xs : list X) (w : World) r :
  one_after_the_other call xs w r →
  (∀ x w', x ∈ xs → outcome (call x w') = Ok tt) →
  outcome r = Ok tt.
Proof.
  intros Hr Hok. rewrite (one_after_the_other_for _ _ _ _ Hr). by apply for_ok.
Qed.

(** What a handler does with an output that is not a generator, and with a
    generator, when its sinks are a collection. *)
Lemma fan_out_single (items : list sink) (output : value) (w : World) :
  is_Generator output = false →
  fan_out (Collection items) output w = for_ items (λ s, _sink_output s output) w.
Proof.
  intros Hg. destruct output; try discriminate Hg;
    exact (for_singleton _
             (λ val, for_sinks (Collection items) (λ s, await (_sink_output s val))) w).
Qed.

Lemma fan_out_generator (items : list sink) (yields : list value) (fin : option exn)
    (w : World) :
  let d := for_ (each_to_every yields items) (λ sv, _sink_output sv.1 sv.2) w in
  fan_out (Collection items) (VGen yields fin) w
  = mkRes (match outcome d, fin with
           | Raise e, _ => Raise e
           | Ok _, Some e => Raise e
           | Ok _, None => Ok tt
           end) (world d) (trace d).
Proof.
  intros d. subst d. unfold fan_out, for_sinks, await. rewrite bind_unfold.
  rewrite (for_for yields items (λ s v, _sink_output s v) w).
  destruct (outcome (for_ _ _ w)) as [[]|e]; [|done].
  destruct fin; cbn [outcome world trace raise mret M_ret ret]; by rewrite app_nil_r.
Qed.

(** C3, as amended.  When the processing function returns a generator and
    the sinks of the binding are a list or a tuple, the handler calls the
    sink dispatcher on each value that the generator yields, in the order
    yielded, with every sink in turn before it goes on to the next value,
    each call made once the one before has returned; a call that raises
    ends the dispatch with its exception.  A function among the sinks is
    called on the value.  The dispatches are all the pairs of a value and
    a sink, each once, when no sink raises; then the handler returns, or
    raises the exception that ended the generator. *)
Theorem generator_outputs_dispatched (f : PyFunction) (items : list sink)
    (msg : value) (kwargs : dict) (yields : list value) (fin : option exn)
    (w : World) :
  outcome (invoke f msg kwargs w) = Ok (VGen yields fin) →
  let called := invoke f msg kwargs w in
  let r := _handler f (Collection items) msg kwargs w in
  let pairs := each_to_every yields items in
  (∃ d, one_after_the_other (λ sv, _sink_output sv.1 sv.2) pairs (world called) d
        ∧ world r = world d
        ∧ trace r = trace called ++ trace d
        ∧ outcome r = match outcome d, fin with
                      | Raise e, _ => Raise e
                      | Ok _, Some e => Raise e
                      | Ok _, None => Ok tt
                      end)
  ∧ (∀ id is_coroutine body v w',
       _sink_output (FunctionSink id is_coroutine body) v w'
       = function_called id body v w')
  ∧ omap read_dispatch (trace r) `prefix_of` map (λ sv, (ref_of sv.1, sv.2)) pairs
  ∧ (outcome r = Ok tt →
     omap read_dispatch (trace r) = map (λ sv, (ref_of sv.1, sv.2)) pairs)
  ∧ ((∀ s v w', s ∈ items → outcome (_sink_output s v w') = Ok tt) →
     omap read_dispatch (trace r) = map (λ sv, (ref_of sv.1, sv.2)) pairs
     ∧ outcome r = match fin with Some e => Raise e | None => Ok tt end).
Proof.
  intros Hf called r pairs. subst called r pairs.
  set (w1 := world (invoke f msg kwargs w)).
  set (d := for_ (each_to_every yields items) (λ sv, _sink_output sv.1 sv.2) w1).
  assert (Hd : one_after_the_other (λ sv, _sink_output sv.1 sv.2)
                 (each_to_every yields items) w1 d)
    by apply for_one_after_the_other.
  assert (Hr : _handler f (Collection items) msg kwargs w
               = mkRes (match outcome d, fin with
                        | Raise e, _ => Raise e
                        | Ok _, Some e => Raise e
                        | Ok _, None => Ok tt
                        end) (world d) (trace (invoke f msg kwargs w) ++ trace d)).
  { unfold _handler. rewrite bind_unfold, Hf. fold w1.
    by rewrite (fan_out_generator items yields fin w1). }
  destruct (dispatches_follow _ _ _ Hd) as [Hp He].
  rewrite Hr. cbn [outcome world trace].
  rewrite omap_app, invoke_no_dispatch. cbn [app].
  split; [by exists d|]. split; [apply function_sink_called|].
  split; [done|]. split; [|].
  - intros Hok. apply He. destruct (outcome d) as [[]|e]; [done|discriminate].
  - intros Hsinks.
    assert (Hok : outcome d = Ok tt).
    { eapply one_after_the_other_ok; [exact Hd|]. intros [s v] w' Hin. cbn [fst snd].
      apply Hsinks. unfold each_to_every in Hin.
      apply list_elem_of_bind in Hin as (v' & Hin & _).
      by apply list_elem_of_fmap in Hin as (s' & [= -> ->] & Hs). }
    rewrite Hok. split; [by apply He|]. by destruct fin.
Qed.

Lemma generator_outputs_dispatched_witness :
  _handler (producing (VGen [VInt 1; VInt 2] None))
    (Collection [recorder 100; recorder 101]) (VStr "x") ∅ world0
  = mkRes (Ok tt) world0
      [Processed [] (Ok (VGen [VInt 1; VInt 2] None));
       Dispatched (FunctionRef 100) (VInt 1) [Effect 100] None;
       Dispatched (FunctionRef 101) (VInt 1) [Effect 101] None;
       Dispatched (FunctionRef 100) (VInt 2) [Effect 100] None;
       Dispatched (FunctionRef 101) (VInt 2) [Effect 101] None].
Proof.
  destruct (generator_outputs_dispatched (producing (VGen [VInt 1; VInt 2] None))
              [recorder 100; recorder 101] (VStr "x") ∅ [VInt 1; VInt 2] None world0
              eq_refl) as ((d & Hd & Hw & Ht & Ho) & _).
  apply one_after_the_other_for in Hd. subst d.
  destruct (_handler _ _ _ _ _) as [o w' tr]. cbn [outcome world trace] in *.
  by subst.
Defined.

(** C3, as stated, fails: a list is a finite sequence of outputs, and it is
    not dispatched element by element: it goes to the sink whole, as one
    output. *)
Lemma list_output_not_iterated :
  omap read_dispatch
    (trace (_handler (producing (VList [VInt 1; VInt 2]))
              (Collection [recorder 100]) (VStr "x") ∅ world0))
  = [(FunctionRef 100, VList [VInt 1; VInt 2])]
  ∧ omap read_dispatch
      (trace (_handler (producing (VList [VInt 1; VInt 2]))
                (Collection [recorder 100]) (VStr "x") ∅ world0))
    ≠ [(FunctionRef 100, VInt 1); (FunctionRef 100, VInt 2)].
Proof. split; [reflexivity|discriminate]. Qed.

(** Sinks given as an iterator are handed out once: the first value that a
    generator yields goes to them, and the values after it go nowhere. *)
Lemma iterator_of_sinks_is_used_up :
  omap read_dispatch
    (trace (_handler (producing (VGen [VInt 1; VInt 2] None))
              (Iterator 0 [recorder 100; recorder 101]) (VStr "x") ∅ world0))
  = [(FunctionRef 100, VInt 1); (FunctionRef 101, VInt 1)].
Proof. reflexivity. Qed.

(** C6, as stated, fails: the output [None] of a function that returns
    nothing is dispatched; a function sink is called with it, and a storage
    sink meets it with the sink-shape error. *)
Lemma None_output_is_dispatched :
  _handler (producing VNone) (Collection [recorder 100]) (VStr "x") ∅ world0
  = mkRes (Ok tt) world0
      [Processed [] (Ok VNone);
       Dispatched (FunctionRef 100) VNone [Effect 100] None]
  ∧ _handler (producing VNone) (Collection [CacheSink 1]) (VStr "x") ∅ world0
  = mkRes (Raise sink_shape_error) world0
      [Processed [] (Ok VNone);
       Dispatched (CacheRef 1) VNone [] (Some sink_shape_error)].
Proof. split; reflexivity. Qed.

(** C6, as amended.  When the processing function returns nothing, the
    value [None] is dispatched as a single output: the handler calls the
    sink dispatcher on [None] with every sink of the list of sinks, in
    order, each call made once the one before has returned.  A function
    among the sinks is called with [None]; a storage sink raises the
    sink-shape error without being written, wherever it stands in the
    list, and the sinks after it are not called.  No sink is called and no
    error is raised only when no sink is declared. *)
Theorem handler_returning_None (f : PyFunction) (items : list sink)
    (msg : value) (kwargs : dict) (w : World) :
  outcome (invoke f msg kwargs w) = Ok VNone →
  let called := invoke f msg kwargs w in
  let r := _handler f (Collection items) msg kwargs w in
  (∃ d, one_after_the_other (λ s, _sink_output s VNone) items (world called) d
        ∧ r = mkRes (outcome d) (world d) (trace called ++ trace d))
  ∧ (∀ id is_coroutine body w',
       _sink_output (FunctionSink id is_coroutine body) VNone w'
       = function_called id body VNone w')
  ∧ (∀ cache w',
       _sink_output (CacheSink cache) VNone w'
       = mkRes (Raise sink_shape_error) w'
           [Dispatched (CacheRef cache) VNone [] (Some sink_shape_error)])
  ∧ omap read_dispatch (trace r) `prefix_of` map (λ s, (ref_of s, VNone)) items
  ∧ (outcome r = Ok tt →
     omap read_dispatch (trace r) = map (λ s, (ref_of s, VNone)) items)
  ∧ (∀ before cache after, items = before ++ CacheSink cache :: after →
       (∀ s w', s ∈ before → outcome (_sink_output s VNone w') = Ok tt) →
       outcome r = Raise sink_shape_error
       ∧ omap read_dispatch (trace r)
         = map (λ s, (ref_of s, VNone)) (before ++ [CacheSink cache]))
  ∧ (items = [] → r = mkRes (Ok tt) (world called) (trace called)).
Proof.
  intros Hf called r. subst called r.
  set (w1 := world (invoke f msg kwargs w)).
  set (d := for_ items (λ s, _sink_output s VNone) w1).
  assert (Hd : one_after_the_other (λ s, _sink_output s VNone) items w1 d)
    by apply for_one_after_the_other.
  assert (Hr : _handler f (Collection items) msg kwargs w
               = mkRes (outcome d) (world d) (trace (invoke f msg kwargs w) ++ trace d)).
  { unfold _handler. rewrite bind_unfold, Hf. fold w1.
    by rewrite (fan_out_single items VNone w1). }
  assert (Hfollows : ∀ xs w' r',
            one_after_the_other (λ s, _sink_output s VNone) xs w' r' →
            follows read_dispatch r' (map (λ s, (ref_of s, VNone)) xs)).
  { intros xs w' r' Hr'.
    replace (map (λ s, (ref_of s, VNone)) xs) with (xs ≫= λ s, [(ref_of s, VNone)]).
    - eapply one_after_the_other_follows; [|exact Hr'].
      intros s w''. apply sink_output_follows.
    - clear. induction xs as [|s xs IH]; [done|]. by rewrite bind_cons, IH. }
  destruct (Hfollows _ _ _ Hd) as [Hp He].
  rewrite Hr. cbn [outcome world trace].
  rewrite omap_app, invoke_no_dispatch. cbn [app].
  split; [by exists d|]. split; [intros; apply function_sink_called|].
  split; [done|]. split; [done|]. split; [done|]. split.
  - intros before cache after -> Hbefore.
    destruct (one_after_the_other_stops (λ s, _sink_output s VNone) before after
                (CacheSink cache) w1 d sink_shape_error Hd Hbefore (λ _, eq_refl))
      as [Ho Hd'].
    split; [done|]. clear Ho.
    rewrite (one_after_the_other_for _ _ _ _ Hd').
    pose proof (for_ok before (λ s, _sink_output s VNone) w1
                  (λ s w' Hs, Hbefore s w' Hs)) as Hok.
    destruct (Hfollows _ _ _ (for_one_after_the_other
                                (λ s, _sink_output s VNone) before w1)) as [_ Hall].
    rewrite for_app, bind_unfold, Hok. cbn [outcome world trace].
    rewrite omap_app, (Hall Hok), for_singleton, map_app. reflexivity.
  - intros ->. inversion Hd; subst. cbn [outcome world trace].
    by rewrite app_nil_r.
Qed.

Lemma handler_returning_None_witness :
  _handler (producing VNone) (Collection [recorder 100; CacheSink 1; recorder 101])
    (VStr "x") ∅ world0
  = mkRes (Raise sink_shape_error) world0
      [Processed [] (Ok VNone);
       Dispatched (FunctionRef 100) VNone [Effect 100] None;
       Dispatched (CacheRef 1) VNone [] (Some sink_shape_error)].
Proof.
  destruct (handler_returning_None (producing VNone)
              [recorder 100; CacheSink 1; recorder 101] (VStr "x") ∅ world0 eq_refl)
    as ((d & Hd & Hr) & _).
  apply one_after_the_other_for in Hd. subst d. exact Hr.
Defined.

(** ** Dispatch loop *)

Lemma aiter_resume_arrived (it : nat) (item : feed_item) (w : World) (msg : value) :
  outcome (aiter_resume it item w) = Ok msg → arrived item msg.
Proof.
  unfold aiter_resume. destruct (w_topics w !! it) as [t|] eqn:Ht.
  - unfold Topic_aiter_resume, try_except.
    match goal with
    | |- context [outcome (?b w)] => destruct (b w) as [[a|e] w1 tr] eqn:Hb
    end; simpl.
    + intros [= ->]. destruct item as [raw|e]; [|discriminate].
      destruct raw; try discriminate. right.
      revert Hb. rewrite (bind_ok _ _ _ _ _ _ (get_topic_ok _ _ _ Ht)). simpl.
      destruct (decode_field_spec (conf t) "key_deserializer" raw1 w)
        as [(k' & Hk & _)|[Hk _]].
      * rewrite (bind_ok _ _ _ _ _ _ Hk). simpl.
        rewrite (bind_ok _ _ _ _ _ _ (get_topic_ok _ _ _ Ht)). simpl.
        destruct (decode_field_spec (conf t) "value_deserializer" raw2 w)
          as [(v' & Hv & _)|[Hv _]].
        -- rewrite (bind_ok _ _ _ _ _ _ Hv). simpl. intros [= <- _ _]. by eauto 10.
        -- rewrite (bind_raise _ _ _ _ _ _ Hv). intros [=].
      * rewrite (bind_raise _ _ _ _ _ _ Hk). intros [=].
    + destruct (is_Exception e); simpl; [|discriminate].
      rewrite bind_unfold. unfold get_topic.
      destruct (w_topics w1 !! it); simpl; intros [=].
  - destruct item; simpl; [intros [= ->]; by left|discriminate].
Qed.

Section dispatch_properties.
Context `{!SetOrder}.

Lemma deliver_follows c key kwargs n msg w :
  follows read_step (deliver c key kwargs n msg w)
    (map (λ h, Handle key n h msg) (handlers_for c key)).
Proof.
  unfold deliver.
  replace (map (λ h, Handle key n h msg) (handlers_for c key))
    with (handlers_for c key ≫= λ h, [Handle key n h msg]).
  - apply for_follows. intros h w'. split; [|intros _]; reflexivity.
  - induction (handlers_for c key) as [|h hs IH]; [done|]. by rewrite bind_cons, IH.
Qed.

Lemma deliver_no_pull c key kwargs n msg w :
  omap read_pull (trace (deliver c key kwargs n msg w)) = [].
Proof.
  unfold deliver. revert w.
  induction (handlers_for c key) as [|h hs IH]; intros w; [done|].
  simpl. unfold bind. rewrite scope_unfold. cbn [outcome world trace].
  destruct (outcome (await _ w)); simpl; [|done]. apply IH.
Qed.

Lemma turn_cases c key it kwargs n item w :
  let r := turn c key it kwargs n item w in
  (∃ e, outcome r = Raise e
        ∧ omap read_step (trace r) = [] ∧ omap read_pull (trace r) = [])
  ∨ (∃ msg, arrived item msg
        ∧ omap read_pull (trace r) = [msg]
        ∧ omap read_step (trace r) `prefix_of` round key (handlers_for c key) n msg
        ∧ (outcome r = Ok tt →
           omap read_step (trace r) = round key (handlers_for c key) n msg)).
Proof.
  unfold turn. rewrite bind_unfold, scope_unfold. cbn [outcome world trace].
  destruct (outcome (aiter_resume it item w)) as [msg|e] eqn:Hpull;
    cbn [outcome world trace].
  2:{ left. by exists e. }
  right. exists msg.
  set (w1 := world (aiter_resume it item w)).
  destruct (deliver_follows c key kwargs n msg w1) as [Hp He].
  pose proof (deliver_no_pull c key kwargs n msg w1) as Hno.
  split; [by eapply aiter_resume_arrived|].
  cbn [app]. rewrite !omap_cons'. cbn [read_pull read_step]. rewrite Hno.
  split; [done|]. split; [by apply prefix_cons|].
  intros Hok. unfold round. f_equal. by apply He.
Qed.

Lemma async_for_in_order c key it kwargs n feed w :
  let r := async_for c key it kwargs n feed w in
  let msgs := omap read_pull (trace r) in
  omap read_step (trace r) `prefix_of` script key (handlers_for c key) n msgs
  ∧ (outcome r = Ok tt →
     omap read_step (trace r) = script key (handlers_for c key) n msgs
     ∧ length msgs = length feed)
  ∧ Forall2 arrived (take (length msgs) feed) msgs.
Proof.
  revert n w. induction feed as [|item rest IH]; intros n w.
  { split; [done|]. split; [done|]. constructor. }
  cbn [async_for]. rewrite bind_unfold.
  destruct (turn_cases c key it kwargs n item w) as
    [(e & Ho & Hs & Hm)|(msg & Harr & Hm & Hp & He)]; cbn zeta in *.
  - rewrite Ho. cbn [outcome world trace]. rewrite Hs, Hm.
    split; [done|]. split; [discriminate|]. constructor.
  - destruct (outcome (turn c key it kwargs n item w)) as [[]|e] eqn:Ho;
      cbn [outcome world trace].
    + specialize (IH (S n) (world (turn c key it kwargs n item w))).
      cbn zeta in IH. destruct IH as (IHp & IHe & IHa).
      rewrite !omap_app, Hm, (He eq_refl). cbn [app script length take].
      split; [|split].
      * by apply prefix_app.
      * intros Hok. destruct (IHe Hok) as [-> ->]. done.
      * by constructor.
    + rewrite Hm. cbn [script length take]. rewrite app_nil_r.
      split; [done|]. split; [discriminate|]. by repeat constructor.
Qed.

(** The coroutine of one source: its messages are handled in the order
    in which they arrive, each by all the handlers before the next is
    pulled. *)
Lemma distribute_in_order c key it kwargs feed w :
  let r := _distribute_messages c key it kwargs feed w in
  let msgs := omap read_pull (trace r) in
  Forall2 arrived (take (length msgs) feed) msgs
  ∧ omap read_step (trace r) `prefix_of` script key (handlers_for c key) 0 msgs
  ∧ (outcome r = Ok tt →
     length msgs = length feed
     ∧ omap read_step (trace r) = script key (handlers_for c key) 0 msgs).
Proof.
  unfold _distribute_messages. rewrite bind_unfold, scope_unfold.
  cbn [outcome world trace].
  destruct (outcome (aiter_start it w)) as [[]|e]; cbn [outcome world trace failure].
  - destruct (async_for_in_order c key it kwargs 0 feed (world (aiter_start it w)))
      as (Hp & He & Ha).
    cbn [app]. rewrite !omap_cons'. cbn [read_pull read_step].
    split; [done|]. split; [done|]. intros Hok. by destruct (He Hok).
  - rewrite !omap_cons'. cbn [read_pull read_step omap length take script].
    split; [constructor|]. split; [done|discriminate].
Qed.





Lemma handlers_for_registered c key :
  handlers_for c key ≡ₚ elements (default ∅ (handlers c !! key)).
Proof.
  unfold handlers_for. destruct (handlers c !! key) as [X|]; cbn [default].
  - apply set_iter_perm.
  - by rewrite elements_empty.
Qed.

Lemma deliver_calls c key kwargs n msg w :
  one_after_the_other (handler_called c key kwargs n msg) (handlers_for c key) w
    (deliver c key kwargs n msg w).
Proof. unfold deliver. exact (for_one_after_the_other _ _ _). Qed.

(** Handlers that returned have each left its event, in order, and none of
    these records a failure. *)
Lemma handlers_returned c key kwargs n msg hs w r :
  one_after_the_other (handler_called c key kwargs n msg) hs w r →
  outcome r = Ok tt →
  omap read_handle (trace r) = map (λ h, (n, h)) hs
  ∧ Forall (λ ev, raised_by ev = None) (trace r).
Proof.
  induction 1 as [w|h hs w e' Ho|h hs w r Ho Hr IH]; cbn [outcome world trace].
  - done.
  - discriminate.
  - intros Hok. destruct (IH Hok) as [IHh IHc]. cbn [handler_called trace app] in *.
    rewrite omap_cons'. cbn [read_handle map]. split; [by rewrite IHh|].
    constructor; [|done]. cbn [raised_by]. cbn [handler_called outcome] in Ho.
    by rewrite Ho.
Qed.

(** C2, as amended.  For a message pulled from a source, the handlers
    called are the handlers registered under the source's key, in the
    order in which the handler set hands them out, which is some
    arrangement of the set and not the order of registration.  The calls
    are made one after the other: each is the registered closure run on
    the message and awaited, and the next is made once it has returned.
    When all return, each registered handler was called once.  When one
    raises, its exception is raised at once: the handlers before it were
    called once each and returned, and the handlers after it are not
    called. *)
Theorem handlers_invoked_in_set_order c key kwargs n msg w :
  let r := deliver c key kwargs n msg w in
  let registered := default ∅ (handlers c !! key) in
  let hs := handlers_for c key in
  hs ≡ₚ elements registered
  ∧ (NoDup hs ∧ ∀ h, h ∈ hs ↔ h ∈ registered)
  ∧ one_after_the_other (handler_called c key kwargs n msg) hs w r
  ∧ (outcome r = Ok tt →
     omap read_handle (trace r) = map (λ h, (n, h)) hs
     ∧ Forall (λ ev, raised_by ev = None) (trace r))
  ∧ (∀ e, outcome r = Raise e →
     ∃ before h after returned w',
       hs = before ++ h :: after
       ∧ trace r = returned ++ trace (handler_called c key kwargs n msg h w')
       ∧ outcome (closures c h msg kwargs w') = Raise e
       ∧ world r = world (closures c h msg kwargs w')
       ∧ omap read_handle returned = map (λ h, (n, h)) before
       ∧ Forall (λ ev, raised_by ev = None) returned
       ∧ omap read_handle (trace r) = map (λ h, (n, h)) (before ++ [h]))
  ∧ ((∀ h w', h ∈ registered → outcome (closures c h msg kwargs w') = Ok tt) →
     outcome r = Ok tt).
Proof.
  intros r registered hs.
  pose proof (handlers_for_registered c key) as Hperm. fold hs registered in Hperm.
  assert (Hmem : ∀ h, h ∈ hs ↔ h ∈ registered).
  { intros h. by rewrite Hperm, elem_of_elements. }
  pose proof (deliver_calls c key kwargs n msg w) as Hcalls. fold hs r in Hcalls.
  split; [done|]. split; [|split; [done|split; [|split]]].
  - split; [|done]. rewrite Hperm. apply NoDup_elements.
  - intros Hok. exact (handlers_returned _ _ _ _ _ _ _ _ Hcalls Hok).
  - intros e He.
    destruct (one_after_the_other_raised _ _ _ _ _ Hcalls He)
      as (before & h & after & rb & Hhs & Hb & Hok & Hh & Hw & Ht).
    destruct (handlers_returned _ _ _ _ _ _ _ _ Hb Hok) as [Hread Hclean].
    exists before, h, after, (trace rb), (world rb).
    split; [done|]. split; [done|]. split; [exact Hh|]. split; [exact Hw|].
    split; [done|]. split; [done|].
    rewrite Ht, omap_app, Hread, map_app. reflexivity.
  - intros Hret. subst r. unfold deliver. apply for_ok.
    intros h w' Hin. rewrite scope_unfold. cbn [outcome]. unfold await.
    apply Hret. by apply Hmem.
Qed.


(** Registering puts the handler into the set of the key. *)
Lemma register_handler_member key h c :
  h ∈ default ∅ (handlers (register_handler key h c) !! key).
Proof.
  unfold register_handler. cbn [handlers]. rewrite lookup_insert_eq. simpl.
  apply elem_of_union. left. by apply elem_of_singleton.
Qed.

(** The set does not remember in which order handlers were registered. *)
Lemma registration_order_forgotten key a b c :
  handlers_for (register_handler key a (register_handler key b c)) key
  = handlers_for (register_handler key b (register_handler key a c)) key.
Proof.
  unfold handlers_for, register_handler. cbn [handlers].
  rewrite !lookup_insert_eq. cbn [default].
  f_equal. apply set_eq. intros x. unfold id. rewrite !elem_of_union. tauto.
Qed.

(** So whatever the order of a set, handlers are not always called in the
    order of their registration. *)
Lemma no_order_keeps_registration_order :
  ¬ (∀ a b, a ≠ b →
       handlers_for (register_handler "k" b (register_handler "k" a Conf_empty)) "k"
       = [a; b]).
Proof.
  intros Hall.
  pose proof (Hall 1 2 ltac:(done)) as H12.
  pose proof (Hall 2 1 ltac:(done)) as H21.
  rewrite registration_order_forgotten in H21. congruence.
Qed.

Lemma async_for_unhandled c key it kwargs n feed w :
  handlers c !! key = None →
  let r := async_for c key it kwargs n feed w in
  omap read_handle (trace r) = []
  ∧ (∀ e, outcome r = Raise e →
       ∃ n inner, last (trace r) = Some (Pulled key n inner (Raise e)))
  ∧ (w_topics w !! it = None → ∀ msgs, feed = map Delivered msgs →
       r = mkRes (Ok tt) w (imap (λ i m, Pulled key (n + i) [] (Ok m)) msgs)).
Proof.
  intros Hnone. assert (Hhs : handlers_for c key = []).
  { unfold handlers_for. by rewrite Hnone. }
  revert n w. induction feed as [|item rest IH]; intros n w.
  { split; [done|]. split; [discriminate|]. intros _ [|??] Hfeed; [done|discriminate]. }
  cbn [async_for]. rewrite bind_unfold.
  assert (Hturn : turn c key it kwargs n item w
                  = mkRes (match outcome (aiter_resume it item w) with
                           | Ok _ => Ok tt | Raise e => Raise e end)
                      (world (aiter_resume it item w))
                      [Pulled key n (trace (aiter_resume it item w))
                         (outcome (aiter_resume it item w))]).
  { unfold turn. rewrite bind_unfold, scope_unfold. cbn [outcome world trace].
    destruct (outcome (aiter_resume it item w)); [|done].
    unfold deliver. rewrite Hhs. simpl. done. }
  rewrite Hturn. cbn [outcome world trace].
  destruct (outcome (aiter_resume it item w)) as [msg|e] eqn:Hpull;
    cbn [outcome world trace].
  - destruct (IH (S n) (world (aiter_resume it item w))) as (IHh & IHe & IHp).
    cbn [app]. rewrite !omap_cons'. cbn [read_handle].
    split; [done|]. split.
    + intros e He. destruct (IHe e He) as (n' & inner & Hl).
      exists n', inner. rewrite last_cons, Hl. done.
    + intros Hplain [|m msgs] Hfeed; [discriminate|].
      injection Hfeed as -> ->.
      assert (Hr : aiter_resume it (Delivered m) w = mkRes (Ok m) w []).
      { unfold aiter_resume. by rewrite Hplain. }
      rewrite Hr in *. cbn [outcome world trace] in *.
      injection Hpull as <-.
      rewrite (IHp Hplain msgs eq_refl). cbn [outcome world trace imap].
      f_equal. f_equal; [by rewrite Nat.add_0_r|].
      apply imap_ext. intros i x _. simpl. f_equal. lia.
  - rewrite !omap_cons'. cbn [read_handle omap].
    split; [done|]. split.
    + intros e' [= ->]. by exists n, (trace (aiter_resume it item w)).
    + intros Hplain [|m msgs] Hfeed; [discriminate|].
      injection Hfeed as -> ->.
      revert Hpull. unfold aiter_resume. rewrite Hplain. discriminate.
Qed.

(** C10.  When the handler mapping has no entry for the key of a source,
    the loop calls no handler, pulls the messages in the order of their
    arrival, raises nothing unless the source itself fails, and when it
    returns it has consumed every message; on a source that hands over
    its items as they are it does return, having pulled them all. *)
Theorem unhandled_source_is_drained c key it kwargs feed w :
  handlers c !! key = None →
  let r := _distribute_messages c key it kwargs feed w in
  let msgs := omap read_pull (trace r) in
  omap read_handle (trace r) = []
  ∧ Forall2 arrived (take (length msgs) feed) msgs
  ∧ (outcome r = Ok tt →
     length msgs = length feed ∧ omap read_step (trace r) = script key [] 0 msgs)
  ∧ (∀ e, outcome r = Raise e → source_failed key e (trace r))
  ∧ (w_topics w !! it = None → ∀ ms, feed = map Delivered ms →
     r = mkRes (Ok tt) w
           (Opened key [] None :: imap (λ n m, Pulled key n [] (Ok m)) ms)).
Proof.
  intros Hnone r msgs.
  destruct (distribute_in_order c key it kwargs feed w) as (Ha & _ & He).
  fold r in Ha, He. fold msgs in Ha, He.
  assert (Hhs : handlers_for c key = []).
  { unfold handlers_for. by rewrite Hnone. }
  rewrite Hhs in He.
  subst r msgs. unfold _distribute_messages in *.
  rewrite bind_unfold, scope_unfold in *.
  cbn [outcome world trace] in *.
  destruct (outcome (aiter_start it w)) as [[]|e] eqn:Hopen;
    cbn [outcome world trace failure] in *.
  - destruct (async_for_unhandled c key it kwargs 0 feed (world (aiter_start it w)) Hnone)
      as (Hh & Hf & Hp).
    cbn [app] in *. rewrite !omap_cons' in *. cbn [read_handle] in *.
    split; [done|]. split; [done|]. split; [done|]. split.
    + intros e Hr. right. destruct (Hf e Hr) as (n & inner & Hl).
      exists n, inner. by rewrite last_cons, Hl.
    + intros Hplain ms ->.
      revert Hopen Hp. unfold aiter_start. rewrite Hplain. simpl. intros _ Hp.
      by rewrite (Hp Hplain ms eq_refl).
  - split; [done|]. split; [done|]. split; [done|]. split.
    + intros e' [= ->]. left. by eexists.
    + intros Hplain. revert Hopen. unfold aiter_start. by rewrite Hplain.
Qed.
End dispatch_properties.

Lemma handlers_invoked_in_set_order_witness :
  outcome (deliver (H := elements_order) two_handlers "9" ∅ 0 (VStr "x") world0) = Ok tt
  ∧ omap read_handle
      (trace (deliver (H := elements_order) two_handlers "9" ∅ 0 (VStr "x") world0))
    = [(0, 2); (0, 1)].
Proof.
  destruct (handlers_invoked_in_set_order (H := elements_order)
              two_handlers "9" ∅ 0 (VStr "x") world0) as (_ & _ & _ & Hall & _ & Hret).
  assert (Hok : outcome (deliver (H := elements_order) two_handlers "9" ∅ 0
                           (VStr "x") world0) = Ok tt).
  { apply Hret. intros h w' _. destruct h as [|[|[|h]]]; reflexivity. }
  split; [exact Hok|]. exact (proj1 (Hall Hok)).
Defined.


(** A source yields ['x', 'y'] to a handler that returns its input to a
    recording function: the function is called with 'x', then with 'y'. *)
Example recording_run :
  omap read_dispatch
    (flatten (trace (_distribute_messages (H := elements_order) recording
                       (iterable_key 9) 9 ∅
                       [Delivered (VStr "x"); Delivered (VStr "y")] world0)))
  = [(FunctionRef 100, VStr "x"); (FunctionRef 100, VStr "y")].
Proof. vm_compute. reflexivity. Qed.

(** A handler whose output is the pair ('k', 'v') to a storage sink: the
    sink receives one write, of 'v' under 'k'. *)
Example storing_run :
  omap read_write
    (flatten (trace (_distribute_messages (H := elements_order) storing
                       (iterable_key 9) 9 ∅ [Delivered (VStr "x")] world0)))
  = [(5, VStr "k", VStr "v")].
Proof. vm_compute. reflexivity. Qed.

(** C2, as stated, fails: the handlers [1] and [2] are registered in this
    order under the key of source [9], and a message pulled from the
    source is handed to [2] first. *)
Lemma handlers_not_in_registration_order :
  two_handlers
  = handle [9] (Collection [recorder 101]) echo 2 (handle [9] (Collection [recorder 100]) echo 1 Conf_empty)
  ∧ omap read_step
      (trace (_distribute_messages (H := elements_order) two_handlers
                (iterable_key 9) 9 ∅ [Delivered (VStr "x")] world0))
    = [Pull "9" 0 (VStr "x"); Handle "9" 0 2 (VStr "x"); Handle "9" 0 1 (VStr "x")].
Proof. split; [reflexivity|]. vm_compute. reflexivity. Qed.

Lemma unhandled_source_is_drained_witness :
  omap read_handle
    (trace (_distribute_messages (H := elements_order) two_handlers "10" 10 ∅
              [Delivered (VStr "x"); Delivered (VStr "y")] world0)) = []
  ∧ _distribute_messages (H := elements_order) two_handlers "10" 10 ∅
      [Delivered (VStr "x"); Delivered (VStr "y")] world0
    = mkRes (Ok tt) world0
        [Opened "10" [] None; Pulled "10" 0 [] (Ok (VStr "x"));
         Pulled "10" 1 [] (Ok (VStr "y"))].
Proof.
  destruct (unhandled_source_is_drained (H := elements_order) two_handlers "10" 10 ∅
              [Delivered (VStr "x"); Delivered (VStr "y")] world0)
    as (Hh & _ & _ & _ & Hp).
  - vm_compute. reflexivity.
  - split; [exact Hh|]. exact (Hp eq_refl [VStr "x"; VStr "y"] eq_refl).
Defined.

(** ** Start and shutdown *)

Lemma Topic_shutdown_stops (self : nat) (t : Topic) (w : World) :
  w_topics w !! self = Some t →
  (∀ n, consumer_stop (w_kafka w) n = None) →
  producer_stop (w_kafka w) = None →
  Topic_shutdown self w = mkRes (Ok tt) w (stops t).
Proof.
  intros Ht Hc Hp. unfold Topic_shutdown, stops, await.
  rewrite (bind_ok _ _ _ _ _ _ (get_topic_ok _ _ _ Ht)). cbn [outcome world trace app].
  rewrite bind_unfold. cbn [get_kafka outcome world trace app].
  destruct (consumer t) as [c|], (producer t) as [p|];
    rewrite ?Hc, ?Hp; reflexivity.
Qed.

Lemma for_shutdown_stops (ts : list nat) (w : World) :
  (∀ self, self ∈ ts → is_Some (w_topics w !! self)) →
  (∀ n, consumer_stop (w_kafka w) n = None) →
  producer_stop (w_kafka w) = None →
  for_ ts (λ t, Topic_shutdown t) w
  = mkRes (Ok tt) w (ts ≫= λ self, from_option stops [] (w_topics w !! self)).
Proof.
  intros Hlive Hc Hp. induction ts as [|self ts IH]; [done|].
  destruct (Hlive self) as [t Ht]; [by left|].
  cbn [for_]. change (bind ?m ?k w) with ((m ≫= k) w).
  rewrite (bind_ok _ _ _ _ _ _ (Topic_shutdown_stops _ _ _ Ht Hc Hp)).
  rewrite bind_cons, Ht. cbn [from_option].
  rewrite IH; [done|]. intros x Hx. apply Hlive. by right.
Qed.

(** When the transport stops without failing, shutdown waits and then
    stops the handles of every registered entity, in the order of their
    registration. *)
Lemma Conf_shutdown_stops_all (c : Conf) (w : World) :
  (∀ self, self ∈ topics c → is_Some (w_topics w !! self)) →
  (∀ n, consumer_stop (w_kafka w) n = None) →
  producer_stop (w_kafka w) = None →
  Conf_shutdown c w
  = mkRes (Ok tt) w
      (Slept :: (topics c ≫= λ self, from_option stops [] (w_topics w !! self))).
Proof.
  intros Hlive Hc Hp. unfold Conf_shutdown, await.
  rewrite bind_unfold. cbn [emit outcome world trace].
  by rewrite (for_shutdown_stops _ _ Hlive Hc Hp).
Qed.



(** ** The run of the stream *)

Lemma attempt_unfold {A} (m : M A) (w : World) :
  attempt m w = mkRes (Ok (outcome (m w))) (world (m w)) (trace (m w)).
Proof. reflexivity. Qed.

Lemma run_co_step {A} (m : M (Co A)) (w : World) :
  run_co (Step m) w
  = match outcome (m w) with
    | Ok co' =>
      mkRes (outcome (run_co co' (world (m w)))) (world (run_co co' (world (m w))))
        (trace (m w) ++ trace (run_co co' (world (m w))))
    | Raise e => mkRes (Raise e) (world (m w)) (trace (m w))
    end.
Proof. cbn [run_co]. by destruct (m w) as [[co'|e] w' tr]. Qed.

Lemma Res_eta {A} (r : Res A) : mkRes (outcome r) (world r) (trace r) = r.
Proof. by destruct r. Qed.

Lemma bind_assoc {A B C} (m : M A) (k : A → M B) (k' : B → M C) (w : World) :
  ((m ≫= k) ≫= k') w = (m ≫= λ a, k a ≫= k') w.
Proof.
  rewrite !bind_unfold. destruct (outcome (m w)) as [a|e]; cbn [outcome world trace]; [|done].
  rewrite !bind_unfold. destruct (outcome (k a (world (m w)))) as [b|e];
    cbn [outcome world trace]; [|done].
  by rewrite app_assoc.
Qed.

Lemma bind_ret_r {A} (m : M A) (w : World) : (m ≫= λ a, mret a) w = m w.
Proof.
  rewrite bind_unfold. destruct (m w) as [[a|e] w' tr]; cbn; [|done].
  by rewrite app_nil_r.
Qed.

Lemma run_co_in_steps (ms : list (M unit)) (next : Co unit) (w : World) :
  run_co (in_steps ms next) w = (for_ ms (λ m, m);; run_co next) w.
Proof.
  revert w. induction ms as [|m ms IH]; intros w.
  - cbn [in_steps for_]. rewrite bind_unfold. cbn. by rewrite Res_eta.
  - cbn [in_steps]. rewrite run_co_step.
    rewrite (bind_unfold (for_ (m :: ms) _)), !for_cons, !bind_unfold.
    destruct (outcome (m w)) as [[]|e]; cbn [outcome world trace mret M_ret ret]; [|done].
    rewrite app_nil_r, IH, bind_unfold.
    destruct (outcome (for_ ms _ _)); cbn [outcome world trace]; [|done].
    by rewrite app_assoc.
Qed.

Lemma then_unfold {A B} (m : M A) (m' : M B) (w : World) :
  (m;; m') w =
  match outcome (m w) with
  | Ok _ => mkRes (outcome (m' (world (m w)))) (world (m' (world (m w))))
              (trace (m w) ++ trace (m' (world (m w))))
  | Raise e => mkRes (Raise e) (world (m w)) (trace (m w))
  end.
Proof. reflexivity. Qed.

Section task_properties.
Context `{!SetOrder}.

(** Awaited with no task beside it, the coroutine of a source is
    [Conf._distribute_messages]. *)
Lemma run_async_for_co c key it kwargs n feed w :
  run_co (async_for_co c key it kwargs n feed) w = async_for c key it kwargs n feed w.
Proof.
  revert n w. induction feed as [|item rest IH]; intros n w; [done|].
  cbn [async_for_co async_for]. rewrite run_co_step. unfold turn.
  rewrite then_unfold, !bind_unfold.
  destruct (outcome (scope (Pulled key n) (aiter_resume it item) w)) as [msg|e];
    cbn [outcome world trace mret M_ret ret]; [|done].
  rewrite app_nil_r, run_co_in_steps, then_unfold, for_map.
  unfold deliver.
  change (λ x, handler_step c key kwargs n msg x)
    with (λ h, scope (λ inner r, Handled key n h msg inner (failure r))
                 (await (closures c h msg kwargs))).
  destruct (outcome (for_ (handlers_for c key) _ _)) as [[]|e];
    cbn [outcome world trace]; [|done].
  by rewrite IH, app_assoc.
Qed.

Lemma run_distribute_messages_co c key it kwargs feed w :
  run_co (_distribute_messages_co c key it kwargs feed) w
  = _distribute_messages c key it kwargs feed w.
Proof.
  unfold _distribute_messages_co, _distribute_messages.
  rewrite run_co_step, !then_unfold.
  destruct (outcome (scope _ (aiter_start it) w)) as [[]|e];
    cbn [outcome world trace mret M_ret ret]; [|done].
  by rewrite app_nil_r, run_async_for_co.
Qed.
End task_properties.

Lemma stop_consumer_run self t w :
  w_topics w !! self = Some t →
  stop_consumer self w
  = match consumer t with
    | Some c =>
      transport (consumer_stop (w_kafka w) (cons_topic c))
        (ConsumerStopped (cons_topic c)) w
    | None => mkRes (Ok tt) w []
    end.
Proof.
  intros Ht. unfold stop_consumer, await.
  rewrite (bind_ok _ _ _ _ _ _ (get_topic_ok _ _ _ Ht)). cbn [outcome world trace app].
  rewrite bind_unfold. cbn [get_kafka outcome world trace app].
  destruct (consumer t); [|done]. by rewrite Res_eta.
Qed.

Lemma stop_producer_run self t w :
  w_topics w !! self = Some t →
  stop_producer self w
  = match producer t with
    | Some _ => transport (producer_stop (w_kafka w)) (ProducerStopped (name t)) w
    | None => mkRes (Ok tt) w []
    end.
Proof.
  intros Ht. unfold stop_producer, await.
  rewrite (bind_ok _ _ _ _ _ _ (get_topic_ok _ _ _ Ht)). cbn [outcome world trace app].
  rewrite bind_unfold. cbn [get_kafka outcome world trace app].
  destruct (producer t); [|done]. by rewrite Res_eta.
Qed.

Lemma stop_missing (stop : nat → M unit) self w :
  w_topics w !! self = None →
  (stop = stop_consumer ∨ stop = stop_producer) →
  stop self w = mkRes (Raise (AttributeError "no such object")) w [].
Proof.
  intros Ht [->| ->]; unfold stop_consumer, stop_producer;
    rewrite bind_unfold; unfold get_topic; by rewrite Ht.
Qed.

Lemma transport_world fails done w : world (transport fails done w) = w.
Proof. by destruct fails. Qed.

Lemma Topic_shutdown_in_steps self w :
  for_ (Topic_shutdown_steps self) (λ m, m) w = Topic_shutdown self w.
Proof.
  unfold Topic_shutdown_steps. rewrite for_cons, then_unfold.
  destruct (w_topics w !! self) as [t|] eqn:Ht.
  - rewrite (Topic_shutdown_run _ _ _ Ht), then_unfold.
    rewrite (stop_consumer_run _ _ _ Ht).
    destruct (consumer t) as [c|].
    + destruct (consumer_stop (w_kafka w) (cons_topic c));
        cbn [transport raise emit mret M_ret ret outcome world trace app]; [done|].
      rewrite for_singleton, (stop_producer_run _ _ _ Ht).
      destruct (producer t); [destruct (producer_stop (w_kafka w))|]; by cbn.
    + cbn [transport raise emit mret M_ret ret outcome world trace app].
      rewrite for_singleton, (stop_producer_run _ _ _ Ht).
      destruct (producer t); [destruct (producer_stop (w_kafka w))|]; by cbn.
  - rewrite (stop_missing stop_consumer _ _ Ht); [|by left].
    cbn [outcome world trace]. unfold Topic_shutdown.
    rewrite bind_unfold. unfold get_topic. by rewrite Ht.
Qed.

Lemma for_bind {X Y} (xs : list X) (f : X → list Y) (body : Y → M unit) (w : World) :
  for_ (xs ≫= f) body w = for_ xs (λ x, for_ (f x) body) w.
Proof.
  revert w. induction xs as [|x xs IH]; intros w; [done|].
  rewrite bind_cons, for_app, for_cons. by apply bind_ext.
Qed.

Lemma for_ext {X} (xs : list X) (body body' : X → M unit) (w : World) :
  (∀ x w', body x w' = body' x w') → for_ xs body w = for_ xs body' w.
Proof.
  intros Hb. revert w. induction xs as [|x xs IH]; intros w; [done|].
  rewrite !for_cons, !bind_unfold, Hb.
  destruct (outcome (body' x w)); [|done]. by rewrite IH.
Qed.

(** Made one after the other with no task beside, the steps of shutdown
    are [Conf._shutdown]. *)
Lemma Conf_shutdown_in_steps `{!SetOrder} c w :
  for_ (Conf_shutdown_steps c) (λ m, m) w = Conf_shutdown c w.
Proof.
  unfold Conf_shutdown_steps, Conf_shutdown, await.
  rewrite for_cons. apply bind_ext. intros _ w'.
  rewrite for_bind. apply for_ext. intros self w''. apply Topic_shutdown_in_steps.
Qed.

(** *** The event loop, step by step *)

Lemma own_app tr tr' : own (tr ++ tr') = own tr ++ own tr'.
Proof. apply filter_app. Qed.

Lemma task_failures_app tr tr' :
  task_failures (tr ++ tr') = task_failures tr ++ task_failures tr'.
Proof. apply omap_app. Qed.

Lemma is_KeyboardInterrupt_true e : is_KeyboardInterrupt e = true → e = KeyboardInterrupt.
Proof. by destruct e. Qed.

Lemma is_KeyboardInterrupt_false e : is_KeyboardInterrupt e = false → e ≠ KeyboardInterrupt.
Proof. by destruct e. Qed.

Lemma interrupted_outcome main st w :
  outcome (interrupted main st w) = Raise KeyboardInterrupt.
Proof. by destruct st as [|[] rest]. Qed.

Lemma all_ended_lookup ts i (co : Co unit) :
  all_ended ts = true → ts !! i = Some (Some co) → False.
Proof.
  unfold all_ended. rewrite forallb_forall. intros Hall Hi.
  apply list_elem_of_lookup_2, list_elem_of_In, Hall in Hi. done.
Qed.

Lemma advance_step (m : M (Co unit)) w :
  advance (Step m) w
  = match outcome (m w) with
    | Ok co' =>
      mkRes (Ok (match co' with Returned _ => None | Step _ => Some co' end))
        (world (m w)) (trace (m w))
    | Raise e => mkRes (Raise e) (world (m w)) (trace (m w))
    end.
Proof.
  unfold advance. rewrite bind_unfold.
  destruct (outcome (m w)); cbn [mret M_ret ret outcome world trace]; [|done].
  by rewrite app_nil_r.
Qed.

Lemma advance_in_steps m ms next w :
  advance (in_steps (m :: ms) next) w
  = match outcome (m w) with
    | Ok _ =>
      mkRes (Ok (match in_steps ms next with
                 | Returned _ => None
                 | Step _ => Some (in_steps ms next)
                 end))
        (world (m w)) (trace (m w))
    | Raise e => mkRes (Raise e) (world (m w)) (trace (m w))
    end.
Proof.
  cbn [in_steps]. rewrite advance_step, then_unfold.
  destruct (outcome (m w)); cbn [mret M_ret ret outcome world trace]; [|done].
  by rewrite app_nil_r.
Qed.

Lemma loop_task main i schedule ts st co w :
  ts !! i = Some (Some co) →
  loop main (i :: schedule) ts st w
  = let a := advance co w in
    let r' :=
      match outcome a with
      | Ok more =>
        loop main schedule (<[i := more]> ts)
          (gather_returned main (<[i := more]> ts) st) (world a)
      | Raise e =>
        if is_KeyboardInterrupt e then interrupted main st (world a)
        else loop main schedule (<[i := None]> ts) (gather_raised main e st) (world a)
      end in
    mkRes (outcome r') (world r') (trace a ++ trace r').
Proof.
  intros Hi. cbn [loop]. rewrite Hi, bind_unfold, attempt_unfold.
  cbn [outcome world trace].
  destruct (outcome (advance co w)) as [more|e]; [done|].
  by destruct (is_KeyboardInterrupt e).
Qed.

Lemma loop_wait main i schedule ts w :
  (∀ co, ts !! i ≠ Some (Some co)) →
  loop main (i :: schedule) ts AtGather w = loop main schedule ts AtGather w.
Proof. intros Hi. cbn [loop]. by destruct (ts !! i) as [[co|]|] eqn:E; [destruct (Hi co)| |]. Qed.

Lemma loop_main main i schedule ts entered rest w :
  (∀ co, ts !! i ≠ Some (Some co)) →
  loop main (i :: schedule) ts (Past entered rest) w
  = let a := advance rest w in
    match outcome a with
    | Ok None => mkRes (Ok tt) (world a) (trace a)
    | Ok (Some rest') =>
      let r' := loop main schedule ts (Past true rest') (world a) in
      mkRes (outcome r') (world r') (trace a ++ trace r')
    | Raise e => mkRes (Raise e) (world a) (trace a)
    end.
Proof.
  intros Hi.
  assert (loop main (i :: schedule) ts (Past entered rest) w
          = (more ← advance rest;
             match more with
             | None => mret tt
             | Some rest' => loop main schedule ts (Past true rest')
             end) w) as ->.
  { cbn [loop]. by destruct (ts !! i) as [[co|]|] eqn:E; [destruct (Hi co)| |]. }
  rewrite bind_unfold. cbn zeta.
  destruct (outcome (advance rest w)) as [[rest'|]|e];
    cbn [mret M_ret ret outcome world trace]; [done| |done].
  by rewrite app_nil_r.
Qed.

Lemma advance_source_task co w :
  source_task co →
  own (trace (advance co w)) = []
  ∧ task_failures (trace (advance co w))
    = match outcome (advance co w) with Ok _ => [] | Raise e => [e] end
  ∧ ∀ more, outcome (advance co w) = Ok (Some more) → source_task more.
Proof.
  intros Hco. destruct Hco as [u|m Hm Hnext]; [by cbn|].
  rewrite advance_step. destruct (Hm w) as [Hown Hfail].
  destruct (outcome (m w)) as [co'|e] eqn:Ho; cbn [outcome world trace]; [|done].
  repeat split; try done. intros more [= Hmore].
  destruct co'; [done|]. injection Hmore as <-. by apply (Hnext w).
Qed.

Lemma run_co_ending pending w :
  run_co (ending pending) w
  = mkRes (match pending with Ok _ => Ok tt | Raise e => Raise e end) w [].
Proof. by destruct pending as [[]|e]. Qed.

(** The starting coroutine, left to run with no task beside it, makes the
    steps it has left in order, until one raises. *)
Lemma run_co_steps_made ms pending w :
  Forall own_step ms →
  let r := run_co (in_steps ms (ending pending)) w in
  (∃ o, steps_made ms o (trace r)
      ∧ outcome r = match o with
                    | Raise e => Raise e
                    | Ok _ => match pending with Ok _ => Ok tt | Raise e => Raise e end
                    end)
  ∧ own (trace r) = trace r ∧ task_failures (trace r) = [].
Proof.
  intros Hms. revert w. induction Hms as [|m ms Hm Hms IH]; intros w r; subst r.
  - cbn [in_steps]. rewrite run_co_ending. cbn [outcome world trace].
    split; [|done]. exists (Ok tt). split; [constructor|done].
  - cbn [in_steps]. rewrite run_co_step, then_unfold. destruct (Hm w) as [Hown Hfail].
    destruct (outcome (m w)) as [[]|e] eqn:Ho; cbn [mret M_ret ret outcome world trace].
    + destruct (IH (world (m w))) as ((o & Hsteps & Hout) & Hown' & Hfail').
      rewrite app_nil_r, own_app, task_failures_app, Hown, Hfail, Hown', Hfail'.
      split; [|done]. exists o. split; [|done]. by apply step_returned.
    + split; [|done]. exists (Raise e). split; [|done]. by apply step_raised.
Qed.

Lemma in_steps_returned ms pending u :
  in_steps ms (ending pending) = Returned u → ms = [] ∧ ∃ u', pending = Ok u'.
Proof. destruct ms; [|done]. destruct pending as [u'|e]; [|done]. by eauto. Qed.

Lemma not_elem_of_cons_ne {A} (x y : A) (l : list A) : x ≠ y → x ∉ l → x ∉ y :: l.
Proof. intros Hne Hl [->|Hin]%elem_of_cons; done. Qed.

(** Past the await: the tasks that are left go on, the starting coroutine
    makes the steps it has left in order until one raises, and ends with
    what is pending; unless a task raises [KeyboardInterrupt]. *)
Lemma loop_past main schedule ts entered ms pending w :
  Forall (λ t, ∀ co, t = Some co → source_task co) ts →
  Forall own_step ms →
  let r := loop main schedule ts (Past entered (in_steps ms (ending pending))) w in
  ((KeyboardInterrupt ∈ task_failures (trace r) ∧ outcome r = Raise KeyboardInterrupt)
   ∨ ((KeyboardInterrupt ∉ task_failures (trace r))
      ∧ ∃ o, steps_made ms o (own (trace r))
           ∧ outcome r = match o with
                         | Raise e => Raise e
                         | Ok _ => match pending with Ok _ => Ok tt | Raise e => Raise e end
                         end))
  ∧ (all_ended ts = true → task_failures (trace r) = [] ∧ own (trace r) = trace r).
Proof.
  revert ts entered ms w.
  induction schedule as [|i schedule IH]; intros ts entered ms w Hts Hms r; subst r.
  { cbn [loop settle].
    destruct (run_co_steps_made ms pending w Hms) as ((o & Hsteps & Hout) & Hown & Hfail).
    rewrite Hfail, Hown. split; [|done]. right. split; [apply not_elem_of_nil|].
    by exists o. }
  destruct (ts !! i) as [[co|]|] eqn:Hi.
  { rewrite (loop_task _ _ _ _ _ _ _ Hi). cbn zeta.
    assert (Hco : source_task co).
    { by apply (Forall_lookup_1 _ _ _ _ Hts Hi co). }
    destruct (advance_source_task co w Hco) as (Hown & Hfail & Hmore).
    split; [|intros Hall; by destruct (all_ended_lookup _ _ _ Hall Hi)].
    destruct (outcome (advance co w)) as [more|e] eqn:Ho;
      cbn [outcome world trace gather_returned gather_raised].
    - rewrite own_app, task_failures_app, Hown, Hfail. cbn [app].
      apply IH; [|done]. apply Forall_insert; [done|].
      intros co' ->. by apply Hmore.
    - destruct (is_KeyboardInterrupt e) eqn:Hki.
      + apply is_KeyboardInterrupt_true in Hki as ->. left.
        rewrite interrupted_outcome, task_failures_app, Hfail. split; [|done].
        apply elem_of_app. left. apply list_elem_of_here.
      + apply is_KeyboardInterrupt_false in Hki.
        rewrite own_app, task_failures_app, Hown, Hfail. cbn [app].
        destruct (IH (<[i := None]> ts) entered ms (world (advance co w)))
          as [[[Hin Hout]|[Hnot Hsteps]] _]; [|done|left|right].
        * apply Forall_insert; [done|]. by intros co' [=].
        * split; [by apply list_elem_of_further|done].
        * split; [apply not_elem_of_cons_ne; [congruence|done]|done]. }
  all: rewrite loop_main; [|by intros co; rewrite Hi]; cbn zeta.
  all: destruct Hms as [|m ms Hm Hms].
  all: try (cbn [in_steps]; destruct pending as [[]|e];
            [cbn [ending advance mret M_ret ret outcome world trace]
            |cbn [ending]; rewrite advance_step;
             cbn [raise outcome world trace]];
            (split; [|done]); right; (split; [apply not_elem_of_nil|]);
            exists (Ok tt); (split; [constructor|done])).
  all: rewrite advance_in_steps; destruct (Hm w) as [Hown Hfail].
  all: destruct (outcome (m w)) as [[]|e] eqn:Ho; cbn [outcome world trace];
    [|rewrite Hown, Hfail; (split; [|done]); right;
      (split; [apply not_elem_of_nil|]); exists (Raise e);
      (split; [by apply step_raised|done])].
  all: destruct (in_steps ms (ending pending)) as [u|m0] eqn:Hin;
    cbn [outcome world trace].
  all: try (destruct (in_steps_returned _ _ _ Hin) as (-> & u' & ->);
            rewrite Hown, Hfail; (split; [|done]); right;
            (split; [apply not_elem_of_nil|]); exists (Ok tt);
            (split; [|done]);
            rewrite <- (app_nil_r (trace (m w)));
            apply step_returned; [done|constructor]).
  all: rewrite <- Hin, own_app, task_failures_app, Hown, Hfail; cbn [app].
  all: destruct (IH ts true ms (world (m w)) Hts Hms)
         as [[[Hk Hout]|(Hnot & o & Hsteps & Hout)] Hall].
  all: split;
    [|intros Ha; destruct (Hall Ha) as [Hf Ho']; split; [done|by rewrite Ho']].
  all: try (left; split; done).
  all: right; (split; [done|]); exists o; (split; [|done]); by apply step_returned.
Qed.

Lemma run_co_source_task co w :
  source_task co →
  own (trace (run_co co w)) = []
  ∧ task_failures (trace (run_co co w))
    = match outcome (run_co co w) with Ok _ => [] | Raise e => [e] end.
Proof.
  intros Hco. revert w. induction Hco as [u|m Hm Hnext IH]; intros w; [done|].
  rewrite run_co_step. destruct (Hm w) as [Hown Hfail].
  destruct (outcome (m w)) as [co'|e] eqn:Ho; cbn [outcome world trace]; [|done].
  destruct (IH w co' Ho (world (m w))) as [Hown' Hfail'].
  by rewrite own_app, task_failures_app, Hown, Hfail, Hown', Hfail'.
Qed.

Lemma shut_down_after_quiet ms (r : Res unit) tr :
  own tr = [] → task_failures tr = [] →
  interrupt_escaped r ∨ shut_down_and_ended ms r →
  interrupt_escaped (mkRes (outcome r) (world r) (tr ++ trace r))
  ∨ shut_down_and_ended ms (mkRes (outcome r) (world r) (tr ++ trace r)).
Proof.
  intros Hown Hfail [[Hin Hout]|(Hnot & Hsteps & before & after & Htr & Hb & Hf & Ha)];
    [left|right]; unfold interrupt_escaped, shut_down_and_ended;
    cbn [outcome world trace]; rewrite ?own_app, ?task_failures_app, ?Hown, ?Hfail;
    cbn [app]; [done|].
  split; [done|]. split; [done|].
  exists (tr ++ before), after.
  rewrite Htr at 1. rewrite app_assoc, own_app, task_failures_app, Hown, Hfail, Hb, Hf.
  done.
Qed.

(** The schedule used up while the starting coroutine awaits. *)
Lemma settle_tasks_run main ms ts w :
  (∀ awaited, resumed main awaited = in_steps ms (ending (caught awaited))) →
  Forall own_step ms →
  Forall (λ t, ∀ co, t = Some co → source_task co) ts →
  let r := settle_tasks main ts w in
  interrupt_escaped r ∨ shut_down_and_ended ms r.
Proof.
  intros Hmain Hms Hts. revert w. induction Hts as [|t ts Ht Hts IH]; intros w r; subst r.
  - cbn [settle_tasks]. rewrite Hmain. right.
    destruct (run_co_steps_made ms (caught (Ok tt)) w Hms)
      as ((o & Hsteps & Hout) & Hown & Hfail).
    unfold shut_down_and_ended. rewrite Hfail, Hown.
    split; [apply not_elem_of_nil|]. split; [by exists o|].
    by exists [], (trace (run_co (in_steps ms (ending (caught (Ok tt)))) w)).
  - destruct t as [co|]; [|apply IH].
    cbn [settle_tasks]. rewrite bind_unfold, attempt_unfold. cbn [outcome world trace].
    destruct (run_co_source_task co w (Ht co eq_refl)) as [Hown Hfail].
    destruct (outcome (run_co co w)) as [[]|e] eqn:Ho.
    + by apply shut_down_after_quiet.
    + destruct (is_KeyboardInterrupt e) eqn:Hki.
      * apply is_KeyboardInterrupt_true in Hki as ->. left. unfold interrupt_escaped.
        cbn [outcome world trace].
        rewrite interrupted_outcome, task_failures_app, Hfail. split; [|done].
        apply elem_of_app. left. apply list_elem_of_here.
      * pose proof (is_KeyboardInterrupt_false _ Hki) as Hne. right.
        rewrite Hmain. unfold caught. rewrite Hki.
        destruct (run_co_steps_made ms (Raise e) (world (run_co co w)) Hms)
          as ((o & Hsteps & Hout) & Hown' & Hfail').
        unfold shut_down_and_ended. cbn [outcome world trace].
        rewrite own_app, task_failures_app, Hown, Hfail, Hown', Hfail'. cbn [app take].
        split; [apply not_elem_of_cons_ne; [congruence|apply not_elem_of_nil]|].
        split; [by exists o|].
        exists (trace (run_co co w)), (trace (run_co (in_steps ms (ending (Raise e)))
                                                (world (run_co co w)))).
        by rewrite Hown, Hfail.
Qed.

Lemma loop_all_ended main ms schedule ts w :
  (∀ awaited, resumed main awaited = in_steps ms (ending (caught awaited))) →
  Forall own_step ms →
  Forall (λ t, ∀ co, t = Some co → source_task co) ts →
  all_ended ts = true →
  let r := loop main schedule ts (gather_returned main ts AtGather) w in
  shut_down_and_ended ms r.
Proof.
  intros Hmain Hms Hts Hall r. subst r. unfold gather_returned. rewrite Hall, Hmain.
  destruct (loop_past main schedule ts false ms (caught (Ok tt)) w Hts Hms)
    as [Hr Hquiet].
  destruct (Hquiet Hall) as [Hfail Hown].
  destruct Hr as [[Hin _]|(_ & o & Hsteps & Hout)].
  { rewrite Hfail in Hin. by apply not_elem_of_nil in Hin. }
  unfold shut_down_and_ended. rewrite Hfail.
  split; [apply not_elem_of_nil|]. split; [by exists o|].
  eexists [], _. by rewrite Hown.
Qed.

(** The run from the await on, for every schedule. *)
Lemma loop_gather main ms schedule ts w :
  (∀ awaited, resumed main awaited = in_steps ms (ending (caught awaited))) →
  Forall own_step ms →
  Forall (λ t, ∀ co, t = Some co → source_task co) ts →
  let r := loop main schedule ts (gather_returned main ts AtGather) w in
  interrupt_escaped r ∨ shut_down_and_ended ms r.
Proof.
  intros Hmain Hms. revert ts w.
  induction schedule as [|i schedule IH]; intros ts w Hts r; subst r.
  all: destruct (all_ended ts) eqn:Hall;
    [right; by apply loop_all_ended|].
  all: unfold gather_returned; rewrite Hall.
  { cbn [loop settle]. by apply settle_tasks_run. }
  destruct (ts !! i) as [[co|]|] eqn:Hi.
  2,3: rewrite loop_wait; [|by intros co; rewrite Hi];
    specialize (IH ts w Hts); unfold gather_returned in IH; by rewrite Hall in IH.
  rewrite (loop_task _ _ _ _ _ _ _ Hi). cbn zeta.
  assert (Hco : source_task co).
  { by apply (Forall_lookup_1 _ _ _ _ Hts Hi co). }
  destruct (advance_source_task co w Hco) as (Hown & Hfail & Hmore).
  destruct (outcome (advance co w)) as [more|e] eqn:Ho.
  - apply shut_down_after_quiet; [done..|].
    apply IH. apply Forall_insert; [done|]. intros co' ->. by apply Hmore.
  - destruct (is_KeyboardInterrupt e) eqn:Hki.
    + apply is_KeyboardInterrupt_true in Hki as ->. left. unfold interrupt_escaped.
      cbn [outcome world trace].
      rewrite interrupted_outcome, task_failures_app, Hfail. split; [|done].
      apply elem_of_app. left. apply list_elem_of_here.
    + pose proof (is_KeyboardInterrupt_false _ Hki) as Hne.
      cbn [gather_raised]. rewrite Hmain. unfold caught. rewrite Hki.
      assert (Hts' : Forall (λ t, ∀ co, t = Some co → source_task co) (<[i := None]> ts)).
      { apply Forall_insert; [done|]. by intros co' [=]. }
      destruct (loop_past main schedule (<[i := None]> ts) false ms (Raise e)
                  (world (advance co w)) Hts' Hms)
        as [[[Hin Hout]|(Hnot & o & Hsteps & Hout)] _]; [left|right].
      * unfold interrupt_escaped. cbn [outcome world trace].
        rewrite task_failures_app, Hfail. split; [|done].
        by apply list_elem_of_further.
      * unfold shut_down_and_ended. cbn [outcome world trace].
        rewrite own_app, task_failures_app, Hown, Hfail. cbn [app take].
        split; [by apply not_elem_of_cons_ne|].
        split; [by exists o|].
        eexists (trace (advance co w)), _. by rewrite Hown, Hfail.
Qed.

(** *** The coroutines of the stream *)

Lemma Conf_shutdown_steps_own c : Forall own_step (Conf_shutdown_steps c).
Proof.
  unfold Conf_shutdown_steps. constructor; [by intros w|].
  apply Forall_forall. intros m (self & Hm & _)%list_elem_of_bind w.
  unfold Topic_shutdown_steps in Hm.
  apply elem_of_cons in Hm as [->|Hm%list_elem_of_singleton].
  - destruct (w_topics w !! self) as [t|] eqn:Ht.
    + rewrite (stop_consumer_run _ _ _ Ht).
      destruct (consumer t) as [k|]; [|done].
      by destruct (consumer_stop (w_kafka w) (cons_topic k)).
    + by rewrite (stop_missing stop_consumer _ _ Ht); [|left].
  - subst m. destruct (w_topics w !! self) as [t|] eqn:Ht.
    + rewrite (stop_producer_run _ _ _ Ht).
      destruct (producer t) as [k|]; [|done].
      by destruct (producer_stop (w_kafka w)).
    + by rewrite (stop_missing stop_producer _ _ Ht); [|right].
Qed.

Lemma source_task_in_steps ms next :
  Forall (λ m : M unit, ∀ w,
            own (trace (m w)) = []
            ∧ task_failures (trace (m w))
              = match outcome (m w) with Ok _ => [] | Raise e => [e] end) ms →
  source_task next →
  source_task (in_steps ms next).
Proof.
  intros Hms Hnext. induction Hms as [|m ms Hm Hms IH]; [done|].
  cbn [in_steps]. apply source_task_step.
  - intros w. rewrite then_unfold. destruct (Hm w) as [Hown Hfail].
    destruct (outcome (m w)); cbn [mret M_ret ret outcome world trace]; [|done].
    by rewrite app_nil_r.
  - intros w co'. rewrite then_unfold.
    destruct (outcome (m w)); cbn [mret M_ret ret outcome world trace]; [|done].
    by intros [= <-].
Qed.

Section stream_properties.
Context `{!SetOrder}.

Lemma source_task_async_for c key it kwargs n feed :
  source_task (async_for_co c key it kwargs n feed).
Proof.
  revert n. induction feed as [|item rest IH]; intros n; [constructor|].
  cbn [async_for_co]. apply source_task_step.
  - intros w. rewrite bind_unfold, scope_unfold. cbn [outcome world trace].
    destruct (outcome (aiter_resume it item w));
      cbn [mret M_ret ret outcome world trace]; done.
  - intros w co'. rewrite bind_unfold, scope_unfold. cbn [outcome world trace].
    destruct (outcome (aiter_resume it item w)) as [msg|e];
      cbn [mret M_ret ret outcome world trace]; [|done].
    intros [= <-]. apply source_task_in_steps; [|apply IH].
    apply Forall_forall. intros m (h & -> & _)%list_elem_of_fmap w'.
    unfold handler_step. rewrite scope_unfold. cbn [outcome world trace].
    by destruct (outcome (await (closures c h msg kwargs) w')).
Qed.

Lemma source_task_distribute c key it kwargs feed :
  source_task (_distribute_messages_co c key it kwargs feed).
Proof.
  apply source_task_step.
  - intros w. rewrite then_unfold, scope_unfold. cbn [outcome world trace].
    destruct (outcome (aiter_start it w)); cbn [mret M_ret ret outcome world trace]; done.
  - intros w co'. rewrite then_unfold, scope_unfold. cbn [outcome world trace].
    destruct (outcome (aiter_start it w)); cbn [mret M_ret ret outcome world trace];
      [|done].
    intros [= <-]. apply source_task_async_for.
Qed.

Lemma stream_tasks c kwargs feeds :
  Forall (λ t, ∀ co, t = Some co → source_task co)
    (Some <$> gathered (stream c kwargs feeds)).
Proof.
  apply Forall_forall. intros t (co & -> & Hco)%list_elem_of_fmap co' [= <-].
  cbn [stream _start gathered] in Hco.
  apply list_elem_of_fmap in Hco as (ki & -> & _). apply source_task_distribute.
Qed.

(** Every run of the stream. *)
Lemma stream_run c kwargs feeds schedule w :
  let r := run (stream c kwargs feeds) schedule w in
  interrupt_escaped r ∨ shut_down_and_ended (Conf_shutdown_steps c) r.
Proof.
  apply loop_gather; [done|apply Conf_shutdown_steps_own|apply stream_tasks].
Qed.
End stream_properties.

(** *** One source *)

Lemma run_co_advance (rest : Co unit) w :
  run_co rest w
  = let a := advance rest w in
    match outcome a with
    | Ok None => mkRes (Ok tt) (world a) (trace a)
    | Ok (Some rest') =>
      let r' := run_co rest' (world a) in
      mkRes (outcome r') (world r') (trace a ++ trace r')
    | Raise e => mkRes (Raise e) (world a) (trace a)
    end.
Proof.
  destruct rest as [[]|m]; [done|].
  rewrite run_co_step, advance_step. cbn zeta.
  destruct (outcome (m w)) as [[[]|m']|e]; cbn [outcome world trace run_co]; [|done..].
  by rewrite app_nil_r.
Qed.

(** With no task left beside it, the starting coroutine runs on alone,
    whatever the schedule. *)
Lemma loop_alone main schedule ts entered rest w :
  all_ended ts = true →
  loop main schedule ts (Past entered rest) w = run_co rest w.
Proof.
  intros Hall. revert entered rest w.
  induction schedule as [|i schedule IH]; intros entered rest w; [done|].
  rewrite loop_main; [|intros co Hi; by destruct (all_ended_lookup _ _ _ Hall Hi)].
  rewrite (run_co_advance rest). cbn zeta.
  destruct (outcome (advance rest w)) as [[rest'|]|e]; [|done..].
  by rewrite IH.
Qed.

(** One task: the schedule has nothing to choose. *)
Lemma loop_one_task main schedule co w :
  loop main schedule [Some co] AtGather w = settle_tasks main [Some co] w.
Proof.
  revert co w. induction schedule as [|i schedule IH]; intros co w; [done|].
  destruct i as [|i].
  - rewrite (loop_task main 0 schedule [Some co] AtGather co w eq_refl). cbn zeta.
    cbn [settle_tasks]. rewrite bind_unfold, attempt_unfold. cbn [outcome world trace].
    rewrite (run_co_advance co). cbn zeta.
    destruct (outcome (advance co w)) as [[co'|]|e]; cbn [outcome world trace].
    + change (<[0 := Some co']> [Some co]) with [Some co'].
      change (gather_returned main [Some co'] AtGather) with AtGather.
      rewrite IH. cbn [settle_tasks]. rewrite bind_unfold, attempt_unfold.
      cbn [outcome world trace].
      destruct (outcome (run_co co' (world (advance co w)))) as [[]|e];
        cbn [outcome world trace].
      * by rewrite app_assoc.
      * destruct (is_KeyboardInterrupt e); by rewrite app_assoc.
    + change (<[0 := None]> [Some co]) with [@None (Co unit)].
      change (gather_returned main [None] AtGather)
        with (Past false (resumed main (Ok tt))).
      by rewrite loop_alone.
    + destruct (is_KeyboardInterrupt e); [done|].
      change (<[0 := None]> [Some co]) with [@None (Co unit)].
      cbn [gather_raised]. by rewrite loop_alone.
  - rewrite loop_wait; [apply IH|]. intros co'. by destruct i.
Qed.

Section start_properties.
Context `{!SetOrder}.

Lemma run_shutdown_then c pending w :
  run_co (in_steps (Conf_shutdown_steps c) (ending pending)) w
  = let s := Conf_shutdown c w in
    mkRes (match outcome s with
           | Raise e => Raise e
           | Ok _ => match pending with Ok _ => Ok tt | Raise e => Raise e end
           end) (world s) (trace s).
Proof.
  rewrite run_co_in_steps, then_unfold, Conf_shutdown_in_steps. cbn zeta.
  destruct (outcome (Conf_shutdown c w)); [|done].
  rewrite run_co_ending. cbn [outcome world trace]. by rewrite app_nil_r.
Qed.

(** What is left of [Conf._start] once its await has ended, run with no
    task beside it, is the [try] statement of the source with the result
    of the await in the place of the await. *)
Lemma resumed_start_is_try c kwargs feeds awaited w :
  run_co (resumed (_start c kwargs feeds) awaited) w
  = try_finally
      (try_except (λ w', mkRes awaited w' []) is_KeyboardInterrupt (λ _, mret tt))
      (await (Conf_shutdown c)) w.
Proof.
  cbn [_start resumed]. fold (caught awaited). rewrite run_shutdown_then. cbn zeta.
  destruct (swallow_KeyboardInterrupt (λ w', mkRes awaited w' []) w) as (Htr & Hw & Ho).
  destruct (try_finally_unfold
              (try_except (λ w', mkRes awaited w' []) is_KeyboardInterrupt
                 (λ _, mret tt)) (await (Conf_shutdown c)) w) as (Htr' & Hw' & Ho').
  cbn zeta in *. cbn [outcome world trace] in Htr, Hw, Ho.
  rewrite <- (Res_eta (try_finally _ _ w)).
  rewrite Htr', Hw', Ho', Htr, Hw, Ho. unfold await, caught. cbn [app].
  destruct (outcome (Conf_shutdown c w)); [|done].
  destruct awaited as [[]|e]; [done|]. by destruct (is_KeyboardInterrupt e).
Qed.

(** The stream of one source: the source's task and then shutdown,
    whatever the schedule. *)
Lemma stream_one_source c kwargs feeds schedule key it w :
  iterables c = {[ (key, it) ]} →
  let t := _distribute_messages c key it kwargs (feeds it) w in
  let s := Conf_shutdown c (world t) in
  let r := run (stream c kwargs feeds) schedule w in
  trace r = trace t ++ trace s ∧ world r = world s
  ∧ outcome r = match outcome t with
                | Raise e =>
                  if is_KeyboardInterrupt e then Raise KeyboardInterrupt
                  else match outcome s with Raise e' => Raise e' | Ok _ => Raise e end
                | Ok _ => match outcome s with Raise e' => Raise e' | Ok _ => Ok tt end
                end.
Proof.
  intros Hit t s r. subst t s r. unfold run, stream, _start. cbn [gathered].
  rewrite Hit, elements_singleton. cbn [map fmap list_fmap fst snd].
  change (gather_returned _ [Some ?co] AtGather) with AtGather.
  rewrite loop_one_task. cbn [settle_tasks].
  rewrite bind_unfold, attempt_unfold, run_distribute_messages_co.
  cbn [outcome world trace resumed cancelled].
  destruct (outcome (_distribute_messages c key it kwargs (feeds it) w)) as [[]|e].
  - rewrite (run_shutdown_then c (Ok tt)). cbn zeta. cbn [outcome world trace].
    by destruct (outcome (Conf_shutdown c _)).
  - destruct (is_KeyboardInterrupt e) eqn:Hki.
    + cbn [interrupted cancelled]. rewrite then_unfold, attempt_unfold.
      change (Returned tt) with (ending (Ok tt)).
      rewrite (run_shutdown_then c (Ok tt)). cbn zeta.
      cbn [raise outcome world trace]. by rewrite app_nil_r.
    + rewrite (run_shutdown_then c (Raise e)). cbn zeta. cbn [outcome world trace].
      by destruct (outcome (Conf_shutdown c _)).
Qed.

End start_properties.

Section start_claims.
Context `{!SetOrder}.



(** In a run in which a source task raises [KeyboardInterrupt], the
    caller of [run] gets it, whatever the schedule: the [except] clause of
    [Conf._start] does not keep it from the caller. *)
Theorem interrupt_reaches_caller c kwargs feeds schedule w :
  let r := run (stream c kwargs feeds) schedule w in
  KeyboardInterrupt ∈ task_failures (trace r) →
  outcome r = Raise KeyboardInterrupt.
Proof.
  intros r Hin.
  by destruct (stream_run c kwargs feeds schedule w) as [[_ Hout]|[Hnot _]].
Qed.

(** With one source that raises [KeyboardInterrupt], shutdown runs as a
    whole on the world the source's loop has left, and then the caller
    gets the interrupt, whatever shutdown ended with. *)
Theorem interrupted_source_shuts_down c kwargs feeds schedule key it w :
  iterables c = {[ (key, it) ]} →
  let t := _distribute_messages c key it kwargs (feeds it) w in
  let s := Conf_shutdown c (world t) in
  let r := run (stream c kwargs feeds) schedule w in
  outcome t = Raise KeyboardInterrupt →
  r = mkRes (Raise KeyboardInterrupt) (world s) (trace t ++ trace s).
Proof.
  intros Hit t s r Ht.
  destruct (stream_one_source c kwargs feeds schedule key it w Hit)
    as (Htr & Hw & Hout).
  fold r t s in Htr, Hw, Hout. rewrite Ht in Hout. cbn in Hout.
  destruct r as [o w' tr]. cbn in *. by subst.
Qed.
End start_claims.



Lemma interrupt_reaches_caller_witness :
  let r := run (@stream elements_order declared ∅ example_feeds) [0; 0; 5; 0] world1 in
  task_failures (trace r) = [KeyboardInterrupt]
  ∧ outcome r = Raise KeyboardInterrupt.
Proof.
  intros r.
  assert (Hf : task_failures (trace r) = [KeyboardInterrupt]) by (vm_compute; reflexivity).
  split; [exact Hf|].
  apply (interrupt_reaches_caller (H := elements_order)).
  fold r. rewrite Hf. apply list_elem_of_here.
Defined.

Lemma interrupted_source_shuts_down_witness :
  let r := run (@stream elements_order declared ∅ example_feeds) [0; 0; 5; 0] world1 in
  outcome r = Raise KeyboardInterrupt
  ∧ own (trace r) = [Slept; ConsumerStopped "emoji"; ProducerStopped "events"].
Proof.
  intros r.
  assert (Hit : iterables declared = {[ ("7", 7) ]}) by (vm_compute; reflexivity).
  assert (Ht : outcome (_distribute_messages (H := elements_order) declared "7" 7 ∅
                          (example_feeds 7) world1) = Raise KeyboardInterrupt)
    by (vm_compute; reflexivity).
  pose proof (interrupted_source_shuts_down (H := elements_order)
                declared ∅ example_feeds [0; 0; 5; 0] "7" 7 world1 Hit Ht) as Hr.
  fold r in Hr. rewrite Hr. split; [reflexivity|]. vm_compute. reflexivity.
Defined.
